(** * AlpacaPay: the token scorer and the price-service cache

    A shallow embedding of [backend/services/tokenScorer.js] (class
    [TokenScorer]) and of the price service (class [PriceService]) and the
    properties of the recommendation engine proved about them.

    Modelling conventions.
    - A JavaScript number is a real number: finite doubles, with exact
      arithmetic.  The non-numbers the code guards against ([undefined] from a
      missing property or map entry, [NaN] from [parseFloat]) are the [None] of
      an [option R]; infinities are outside the model.
    - [Math.log] is the natural logarithm [ln].
    - A plain object used as a dictionary and a [Map] are [gmap string _].
    - The globals [parseFloat] and [Number.prototype.toFixed] are parameters
      of the scorer: nothing proved here depends on what they compute.
    - The arithmetic of the score is also given on binary64 floats, where the
      values the properties pin down are checked by computation. *)

From Stdlib Require Import Reals Lra Lia Ascii String Floats.
From stdpp Require Import base decidable option list gmap strings sorting pretty.

#[local] Set Warnings "-inexact-float".
Local Open Scope R_scope.

(** ** JavaScript values and operators *)

#[global] Instance R_eq_dec : EqDecision R := Req_dec_T.
#[global] Instance Rle_decision (x y : R) : Decision (x <= y) := Rle_dec x y.
#[global] Instance Rlt_decision (x y : R) : Decision (x < y) := Rlt_dec x y.
#[global] Instance Rge_decision (x y : R) : Decision (x >= y) := Rge_dec x y.
#[global] Instance Rgt_decision (x y : R) : Decision (x > y) := Rgt_dec x y.

(** [ToBoolean] on a number-or-undefined: [undefined], [NaN] and [0] are
    falsy. *)
Definition truthy (v : option R) : bool :=
  match v with
  | Some r => bool_decide (r ≠ 0)
  | None => false
  end.

(** [v || d] where [d] is a number. *)
Definition js_or (v : option R) (d : R) : R :=
  match v with
  | Some r => if decide (r = 0) then d else r
  | None => d
  end.

(** Completion of a call: a returned value or a thrown exception. *)
Inductive exn := TypeError | ProviderError (msg : string).

Inductive completion (A : Type) :=
  | Return (a : A)
  | Throw (e : exn).
Arguments Return {A} a.
Arguments Throw {A} e.

(** [String.prototype.toLowerCase], on the ASCII letters (addresses are
    hexadecimal strings). *)
Definition lower_ascii (c : ascii) : ascii :=
  let n := nat_of_ascii c in
  if ((65 <=? n)%nat && (n <=? 90)%nat)%bool then ascii_of_nat (n + 32) else c.

Fixpoint toLowerCase (s : string) : string :=
  match s with
  | EmptyString => EmptyString
  | String c s' => String (lower_ascii c) (toLowerCase s')
  end.

(** [Array.prototype.sort(comparefn)]: a stable sort (ECMAScript 2019); [a]
    is placed after [b] only when [comparefn a b > 0].  Written as a stable
    insertion sort: with a consistent comparator every stable sort returns the
    same array. *)
Section Sort.
Context {A : Type} (comparefn : A → A → R).

Fixpoint sort_insert (x : A) (l : list A) : list A :=
  match l with
  | [] => [x]
  | y :: l' =>
      if decide (comparefn x y > 0) then y :: sort_insert x l' else x :: y :: l'
  end.

Definition sort (l : list A) : list A := foldr sort_insert [] l.
End Sort.

(** ** tokenScorer.js *)

Record Token := {
  address : string;
  symbol : string;
  balance : string
}.

(** An entry of [priceData] and of [slippageData]; a field may be missing. *)
Record PriceInfo := {
  price : option R;
  volatility24h : option R
}.

Record SlippageInfo := {
  slippage : option R;
  estimatedFee : option R
}.

(** A scored token: the spread [...token] and the fields the scorer adds.
    [usdBalance], [volatilityScore] and [slippageScore] are only set on the
    fully scored branch. *)
Record ScoredToken := {
  token : Token;
  usdBalance : option R;
  volatilityScore : option R;
  slippageScore : option R;
  score : R;
  reasons : list string
}.

(** [recommendedToken] is [sortedTokens[0]], [undefined] on an empty array. *)
Record Recommendation := {
  recommendedToken : option ScoredToken;
  allScores : list ScoredToken
}.

(** The constant [weights] of [scoreTokens]. *)
Module weights.
Definition balance : R := 0.4.
Definition volatility : R := 0.3.
Definition slippage : R := 0.3.
End weights.

(** [_normalizeBalance] *)
Definition _normalizeBalance (usdBalance : R) : R :=
  let minBalance := 5 in
  if decide (usdBalance < minBalance) then 0.3 * (usdBalance / minBalance)
  else
    let logScore := Rmin 1 (ln usdBalance / 5) in
    logScore.

Section Scorer.
Variable parseFloat : string → option R.
Variable toFixed : R → nat → string.

(** [_generateReasons] *)
Definition _generateReasons (usdBalance volatility slippage : R) : list string :=
  let reasons := [] in
  let reasons :=
    if decide (usdBalance >= 100) then
      reasons ++ ["High balance ($" +:+ toFixed usdBalance 2 +:+ ") provides flexibility"]
    else if decide (usdBalance >= 20) then
      reasons ++ ["Moderate balance ($" +:+ toFixed usdBalance 2 +:+ ") is sufficient"]
    else
      reasons ++ ["Low balance ($" +:+ toFixed usdBalance 2 +:+ ") may limit options"] in
  let reasons :=
    if decide (volatility < 1) then
      reasons ++ ["Very stable price (" +:+ toFixed volatility 2 +:+ "% 24h change)"]
    else if decide (volatility < 5) then
      reasons ++ ["Stable price (" +:+ toFixed volatility 2 +:+ "% 24h change)"]
    else if decide (volatility > 20) then
      reasons ++ ["High price volatility (" +:+ toFixed volatility 2 +:+ "% 24h change)"]
    else reasons in
  let reasons :=
    if decide (slippage < 0.5) then
      reasons ++ ["Minimal slippage (" +:+ toFixed slippage 2 +:+ "%)"]
    else if decide (slippage > 3) then
      reasons ++ ["High slippage (" +:+ toFixed slippage 2 +:+ "%)"]
    else reasons in
  reasons.

(** The callback of [tokens.map] in [scoreTokens]. *)
Definition scoreToken (priceData : gmap string PriceInfo)
    (slippageData : gmap string SlippageInfo) (tok : Token) : ScoredToken :=
  let address := toLowerCase (address tok) in
  let balance := js_or (parseFloat (balance tok)) 0 in
  let price := js_or (priceData !! address ≫= price) 0 in
  let usdBalance := balance * price in
  let volatility := js_or (priceData !! address ≫= volatility24h) 100 in
  let volatilityScore := 1 - volatility / 100 in
  let slippage := js_or (slippageData !! address ≫= slippage) 10 in
  let slippageScore := 1 - slippage / 10 in
  if decide (usdBalance <= 0) then
    {| token := tok; usdBalance := None; volatilityScore := None;
       slippageScore := None; score := 0; reasons := ["Zero balance"] |}
  else if decide (price <= 0) then
    {| token := tok; usdBalance := None; volatilityScore := None;
       slippageScore := None; score := 0;
       reasons := ["No price data available"] |}
  else
    let score :=
      weights.balance * _normalizeBalance usdBalance
      + weights.volatility * volatilityScore
      + weights.slippage * slippageScore in
    let reasons := _generateReasons usdBalance volatility slippage in
    {| token := tok; usdBalance := Some usdBalance;
       volatilityScore := Some volatilityScore;
       slippageScore := Some slippageScore; score := score;
       reasons := reasons |}.

(** What [scoreToken] reads for a token: its [balance], [price],
    [volatility] and [slippage], with their fallbacks. *)
Definition tokenBalance (tok : Token) : R :=
  js_or (parseFloat (balance tok)) 0.

Definition tokenPrice (priceData : gmap string PriceInfo) (tok : Token) : R :=
  js_or (priceData !! toLowerCase (address tok) ≫= price) 0.

Definition tokenVolatility (priceData : gmap string PriceInfo) (tok : Token) : R :=
  js_or (priceData !! toLowerCase (address tok) ≫= volatility24h) 100.

Definition tokenSlippage (slippageData : gmap string SlippageInfo) (tok : Token) : R :=
  js_or (slippageData !! toLowerCase (address tok) ≫= slippage) 10.

(** [scoreTokens].  [tokens] may be [null] or [undefined] ([None]); reading
    an entry of a missing [priceData] or [slippageData] throws. *)
Definition scoreTokens (tokens : option (list Token))
    (priceData : option (gmap string PriceInfo))
    (slippageData : option (gmap string SlippageInfo))
    : completion (option Recommendation) :=
  match tokens with
  | None => Return None
  | Some [] => Return None
  | Some tokens =>
      match priceData, slippageData with
      | Some priceData, Some slippageData =>
          let scoredTokens := scoreToken priceData slippageData <$> tokens in
          let sortedTokens := sort (λ a b, score b - score a) scoredTokens in
          Return (Some {| recommendedToken := sortedTokens !! 0%nat;
                          allScores := sortedTokens |})
      | _, _ => Throw TypeError
      end
  end.
End Scorer.

(** The two records [scoreToken] returns with score 0. *)
Definition zero_balance_result (tok : Token) : ScoredToken :=
  {| token := tok; usdBalance := None; volatilityScore := None;
     slippageScore := None; score := 0; reasons := ["Zero balance"] |}.

Definition no_price_result (tok : Token) : ScoredToken :=
  {| token := tok; usdBalance := None; volatilityScore := None;
     slippageScore := None; score := 0; reasons := ["No price data available"] |}.

(** ** The price service

    [PriceService] keeps two [Map]s; [priceCache] holds the price of an
    address under the address itself and the time it was stored under the
    address followed by [_time] ([volatilityCache]: [_vol_time]).  The
    environment is part of the state: successive calls of [Date.now()] read
    the next element of [clock], successive calls of [Math.random()] the
    next element of [random]. *)

Record ServiceState := {
  priceCache : gmap string R;
  volatilityCache : gmap string R;
  cacheTTL : R;
  clock : nat → R;
  clock_next : nat;
  random : nat → R;
  random_next : nat
}.

(** The constructor, in a given environment. *)
Definition new_PriceService (clock random : nat → R) : ServiceState :=
  {| priceCache := ∅; volatilityCache := ∅; cacheTTL := 5 * 60 * 1000;
     clock := clock; clock_next := 0; random := random; random_next := 0 |}.

(** Computations of the service: the state is threaded, a call returns or
    throws. *)
Definition M (A : Type) : Type := ServiceState → completion A * ServiceState.

#[global] Instance M_ret : MRet M := λ A a σ, (Return a, σ).
#[global] Instance M_bind : MBind M := λ A B f m σ,
  match m σ with
  | (Return a, σ') => f a σ'
  | (Throw e, σ') => (Throw e, σ')
  end.

Definition gets {A : Type} (f : ServiceState → A) : M A := λ σ, (Return (f σ), σ).

Definition throw {A : Type} (e : exn) : M A := λ σ, (Throw e, σ).

(** [try { m } catch (error) { h error }] *)
Definition try_catch {A : Type} (m : M A) (h : exn → M A) : M A := λ σ,
  match m σ with
  | (Return a, σ') => (Return a, σ')
  | (Throw e, σ') => h e σ'
  end.

(** Updates of one field of the state. *)
Definition with_priceCache (m : gmap string R) (σ : ServiceState) : ServiceState :=
  {| priceCache := m; volatilityCache := volatilityCache σ;
     cacheTTL := cacheTTL σ; clock := clock σ; clock_next := clock_next σ;
     random := random σ; random_next := random_next σ |}.

Definition with_volatilityCache (m : gmap string R) (σ : ServiceState) : ServiceState :=
  {| priceCache := priceCache σ; volatilityCache := m;
     cacheTTL := cacheTTL σ; clock := clock σ; clock_next := clock_next σ;
     random := random σ; random_next := random_next σ |}.

Definition with_clock_next (n : nat) (σ : ServiceState) : ServiceState :=
  {| priceCache := priceCache σ; volatilityCache := volatilityCache σ;
     cacheTTL := cacheTTL σ; clock := clock σ; clock_next := n;
     random := random σ; random_next := random_next σ |}.

Definition with_random_next (n : nat) (σ : ServiceState) : ServiceState :=
  {| priceCache := priceCache σ; volatilityCache := volatilityCache σ;
     cacheTTL := cacheTTL σ; clock := clock σ; clock_next := clock_next σ;
     random := random σ; random_next := n |}.

Definition Date_now : M R := λ σ,
  (Return (clock σ (clock_next σ)), with_clock_next (S (clock_next σ)) σ).

Definition Math_random : M R := λ σ,
  (Return (random σ (random_next σ)), with_random_next (S (random_next σ)) σ).

Definition priceCache_get (key : string) : M (option R) :=
  gets (λ σ, priceCache σ !! key).

Definition priceCache_set (key : string) (v : R) : M unit := λ σ,
  (Return (), with_priceCache (<[key := v]> (priceCache σ)) σ).

Definition volatilityCache_get (key : string) : M (option R) :=
  gets (λ σ, volatilityCache σ !! key).

Definition volatilityCache_set (key : string) (v : R) : M unit := λ σ,
  (Return (), with_volatilityCache (<[key := v]> (volatilityCache σ)) σ).

(** [addresses.forEach] filling the local object [result]. *)
Fixpoint forEach {A B : Type} (body : B → A → M B) (result : B) (l : list A) : M B :=
  match l with
  | [] => mret result
  | x :: l' => result' ← body result x; forEach body result' l'
  end.

(** [addresses.filter] with a callback that may read the clock. *)
Fixpoint filterM {A : Type} (keep : A → M bool) (l : list A) : M (list A) :=
  match l with
  | [] => mret []
  | x :: l' =>
      kept ← keep x;
      rest ← filterM keep l';
      mret (if kept : bool then x :: rest else rest)
  end.

(** [Date.now() - cacheTime > ttl] and [Date.now() - cacheTime <= ttl]; a
    comparison with [undefined] is false. *)
Definition expired (now ttl : R) (cacheTime : option R) : bool :=
  match cacheTime with
  | Some t => bool_decide (now - t > ttl)
  | None => false
  end.

Definition within (now ttl : R) (cacheTime : option R) : bool :=
  match cacheTime with
  | Some t => bool_decide (now - t <= ttl)
  | None => false
  end.

Definition mockPrices : gmap string R :=
  list_to_map [
    ("0x6b175474e89094c44da98b954eedeac495271d0f"%string, 1.0);
    ("0xa0b86991c6218b36c1d19d4a2e9eb0ce3606eb48"%string, 1.0);
    ("0xdac17f958d2ee523a2206206994597c13d831ec7"%string, 1.0);
    ("0x2260fac5e5542a773aa44fbcfedf7c193bc2c599"%string, 40000);
    ("0xc02aaa39b223fe8d0a0e5c4f27ead9083c756cc2"%string, 2800);
    ("0x853d955acef822db058eb8505911ed77f175b99e"%string, 0.99);
    ("0x1f9840a85d5af5bf1d1762f925bdaddc4201f984"%string, 8.50);
    ("0x7fc66500c84a76ad7e9c93437bfc5ac33e2ddae9"%string, 85.20)
  ].

(** [mockPrices[address] || (Math.random() * 10 + 0.1)]: [Math.random] is
    only called when the left operand is falsy. *)
Definition mockPrice (address : string) : M R :=
  if truthy (mockPrices !! address) then mret (default 0 (mockPrices !! address))
  else r ← Math_random; mret (r * 10 + 0.1).

(** The values [mockPrice] can return for an address, given the source of
    random numbers. *)
Definition providerPrice (random : nat → R) (address : string) (p : R) : Prop :=
  (truthy (mockPrices !! address) = true ∧ mockPrices !! address = Some p)
  ∨ (truthy (mockPrices !! address) = false ∧ ∃ k, p = random k * 10 + 0.1).

(** The callback of the filter of [_fetchPriceData]:
    [!cached || !cacheTime || (Date.now() - cacheTime > this.cacheTTL)]; the
    clock is only read when the first two operands are false. *)
Definition priceNeedsFetch (address : string) : M bool :=
  cached ← priceCache_get address;
  cacheTime ← priceCache_get (address +:+ "_time");
  if negb (truthy cached) || negb (truthy cacheTime) then mret true
  else
    t ← Date_now;
    ttl ← gets cacheTTL;
    mret (expired t ttl cacheTime).

(** The body of the second [forEach] of [_fetchPriceData]; its condition is
    [cachedPrice && cacheTime && (Date.now() - cacheTime <= this.cacheTTL)]. *)
Definition priceStep (result : gmap string R) (address : string) : M (gmap string R) :=
  cachedPrice ← priceCache_get address;
  cacheTime ← priceCache_get (address +:+ "_time");
  fresh ←
    (if truthy cachedPrice && truthy cacheTime then
       t ← Date_now;
       ttl ← gets cacheTTL;
       mret (within t ttl cacheTime)
     else mret false);
  if fresh : bool then
    mret (<[address := default 0 cachedPrice]> result)
  else
    price ← mockPrice address;
    priceCache_set address price;;
    t' ← Date_now;
    priceCache_set (address +:+ "_time") t';;
    mret (<[address := price]> result).

(** The condition under which [priceStep] serves an address from the cache,
    when the clock reads [t]. *)
Definition priceFresh (t : R) (σ : ServiceState) (address : string) : bool :=
  truthy (priceCache σ !! address)
  && truthy (priceCache σ !! (address +:+ "_time"))
  && within t (cacheTTL σ) (priceCache σ !! (address +:+ "_time")).

(** An address is a hexadecimal string: it has no underscore. *)
Fixpoint has_underscore (s : string) : bool :=
  match s with
  | EmptyString => false
  | String c s' => Ascii.eqb c "_" || has_underscore s'
  end.

(** No address of the request is the time key of [a], nor [a] the time key
    of one of them. *)
Definition keys_apart (a : string) (l : list string) : Prop :=
  ∀ b, b ∈ l → b ≠ a +:+ "_time" ∧ b +:+ "_time" ≠ a.

(** Once an address has been fetched during a request, the cache holds a
    provider price for it, stored at the time of the request, and the result
    carries that price; the rest of the loop keeps this. *)
Definition refetched (a : string) (rnd : nat → R) (t : R)
    (σ : ServiceState) (result : gmap string R) : Prop :=
  ∃ p, providerPrice rnd a p
       ∧ priceCache σ !! a = Some p
       ∧ priceCache σ !! (a +:+ "_time") = Some t
       ∧ result !! a = Some p.

(** [_fetchPriceData] *)
Definition _fetchPriceData (addresses : list string) : M (gmap string R) :=
  addressesToFetch ← filterM priceNeedsFetch addresses;
  if decide (length addressesToFetch = 0%nat) then
    forEach (λ result address,
        cached ← priceCache_get address;
        mret (<[address := js_or cached 0]> result))
      ∅ addresses
  else
    forEach priceStep ∅ addresses.

Definition mockVolatility : gmap string R :=
  list_to_map [
    ("0x6b175474e89094c44da98b954eedeac495271d0f"%string, 0.2);
    ("0xa0b86991c6218b36c1d19d4a2e9eb0ce3606eb48"%string, 0.1);
    ("0xdac17f958d2ee523a2206206994597c13d831ec7"%string, 0.15);
    ("0x853d955acef822db058eb8505911ed77f175b99e"%string, 0.3);
    ("0x2260fac5e5542a773aa44fbcfedf7c193bc2c599"%string, 3.5);
    ("0xc02aaa39b223fe8d0a0e5c4f27ead9083c756cc2"%string, 4.2);
    ("0x1f9840a85d5af5bf1d1762f925bdaddc4201f984"%string, 8.7);
    ("0x7fc66500c84a76ad7e9c93437bfc5ac33e2ddae9"%string, 9.3)
  ].

(** [mockVolatility[address] !== undefined ? mockVolatility[address]
    : (Math.random() * 14 + 1)] *)
Definition mockVolatilityOf (address : string) : M R :=
  match mockVolatility !! address with
  | Some v => mret v
  | None => r ← Math_random; mret (r * 14 + 1)
  end.

Definition volatilityNeedsFetch (address : string) : M bool :=
  cached ← volatilityCache_get address;
  cacheTime ← volatilityCache_get (address +:+ "_vol_time");
  if negb (truthy cached) || negb (truthy cacheTime) then mret true
  else
    t ← Date_now;
    ttl ← gets cacheTTL;
    mret (expired t ttl cacheTime).

(** The condition of the loop is [cachedVolatility !== undefined &&
    cacheTime && (Date.now() - cacheTime <= this.cacheTTL)]. *)
Definition volatilityStep (result : gmap string R) (address : string) : M (gmap string R) :=
  cachedVolatility ← volatilityCache_get address;
  cacheTime ← volatilityCache_get (address +:+ "_vol_time");
  fresh ←
    (if bool_decide (is_Some cachedVolatility) && truthy cacheTime then
       t ← Date_now;
       ttl ← gets cacheTTL;
       mret (within t ttl cacheTime)
     else mret false);
  if fresh : bool then
    mret (<[address := default 0 cachedVolatility]> result)
  else
    volatility ← mockVolatilityOf address;
    volatilityCache_set address volatility;;
    t' ← Date_now;
    volatilityCache_set (address +:+ "_vol_time") t';;
    mret (<[address := volatility]> result).

(** [_fetchVolatilityData] *)
Definition _fetchVolatilityData (addresses : list string) : M (gmap string R) :=
  addressesToFetch ← filterM volatilityNeedsFetch addresses;
  if decide (length addressesToFetch = 0%nat) then
    forEach (λ result address,
        cached ← volatilityCache_get address;
        mret (<[address := js_or cached 0]> result))
      ∅ addresses
  else
    forEach volatilityStep ∅ addresses.

(** The [catch] block of [getPriceData]: what the caches hold, whatever its
    age. *)
Definition cachedFallback (addresses : list string) : M (gmap string PriceInfo) :=
  forEach (λ result address,
      cachedPrice ← priceCache_get address;
      cachedVolatility ← volatilityCache_get address;
      if truthy cachedPrice || truthy cachedVolatility then
        mret (<[address := {| price := Some (js_or cachedPrice 0);
                              volatility24h := Some (js_or cachedVolatility 0) |}]>
                result)
      else mret result)
    ∅ addresses.

(** What the [catch] block builds from a state of the caches. *)
Definition fallbackEntry (σ : ServiceState) (a : string) : option PriceInfo :=
  if truthy (priceCache σ !! a) || truthy (volatilityCache σ !! a) then
    Some {| price := Some (js_or (priceCache σ !! a) 0);
            volatility24h := Some (js_or (volatilityCache σ !! a) 0) |}
  else None.

(** [getPriceData].  The two fetches are the methods [this._fetchPriceData]
    and [this._fetchVolatilityData]; they are parameters here, so that a
    provider that throws can be put in their place. *)
Section GetPriceData.
Variable fetchPriceData fetchVolatilityData : list string → M (gmap string R).

Definition getPriceData_with (tokens : option (list Token)) : M (gmap string PriceInfo) :=
  match tokens with
  | None => mret ∅
  | Some [] => mret ∅
  | Some tokens =>
      let addresses := (λ tok, toLowerCase (address tok)) <$> tokens in
      try_catch
        (priceData ← fetchPriceData addresses;
         volatilityData ← fetchVolatilityData addresses;
         forEach (λ result address,
             mret (<[address :=
                       {| price := Some (js_or (priceData !! address) 0);
                          volatility24h :=
                            Some (js_or (volatilityData !! address) 0) |}]>
                     result))
           ∅ addresses)
        (λ error, cachedFallback addresses)
  end.
End GetPriceData.

Definition getPriceData : option (list Token) → M (gmap string PriceInfo) :=
  getPriceData_with _fetchPriceData _fetchVolatilityData.

Definition mockSlippage : gmap string R :=
  list_to_map [
    ("0x6b175474e89094c44da98b954eedeac495271d0f"%string, 0.1);
    ("0xa0b86991c6218b36c1d19d4a2e9eb0ce3606eb48"%string, 0.05);
    ("0xdac17f958d2ee523a2206206994597c13d831ec7"%string, 0.08);
    ("0x2260fac5e5542a773aa44fbcfedf7c193bc2c599"%string, 0.3);
    ("0xc02aaa39b223fe8d0a0e5c4f27ead9083c756cc2"%string, 0.2);
    ("0x853d955acef822db058eb8505911ed77f175b99e"%string, 0.5);
    ("0x1f9840a85d5af5bf1d1762f925bdaddc4201f984"%string, 1.2);
    ("0x7fc66500c84a76ad7e9c93437bfc5ac33e2ddae9"%string, 1.8)
  ].

(** [getSlippageData] *)
Definition getSlippageData (tokens : option (list Token)) : M (gmap string SlippageInfo) :=
  match tokens with
  | None => mret ∅
  | Some [] => mret ∅
  | Some tokens =>
      let addresses := (λ tok, toLowerCase (address tok)) <$> tokens in
      forEach (λ result address,
          slippage ←
            match mockSlippage !! address with
            | Some s => mret s
            | None => r ← Math_random; mret (r * 4.5 + 0.5)
            end;
          mret (<[address := {| slippage := Some slippage;
                                estimatedFee := Some (slippage * 0.5) |}]>
                  result))
        ∅ addresses
  end.

(** ** The scorer run in the environment of the service

    [scoreTokens] once more, statement by statement, as a computation of the
    service: run this way it could read the clock, draw from [Math.random]
    and read or write the caches, as the methods of the price service above
    do.  Every call of the source is a step of the computation: the callback
    of [tokens.map] on each token in turn, [this._normalizeBalance],
    [this._generateReasons] and each [reasons.push]. *)



Section ScorerCall.
Variable parseFloat : string → option R.
Variable toFixed : R → nat → string.




End ScorerCall.

(** ** A platform for the examples

    An instance of the two globals, used where a statement is evaluated on a
    concrete request: [parseFloat] on plain decimal strings (an optional
    sign, digits, an optional fraction; the longest such prefix is read, and
    a string with no digit is [NaN]) and [toFixed] below [1e21]. *)

Definition digit_of (c : ascii) : option Z :=
  let n := nat_of_ascii c in
  if ((48 <=? n)%nat && (n <=? 57)%nat)%bool then Some (Z.of_nat (n - 48)) else None.

(** [scanDigits s num scale frac seen]: [num] is the number read so far with
    [scale] digits after the point, [frac] tells whether the point was
    passed and [seen] whether a digit was read. *)
Fixpoint scanDigits (s : string) (num : Z) (scale : nat) (frac seen : bool)
    : option (Z * nat) :=
  let stop := if seen then Some (num, scale) else None in
  match s with
  | EmptyString => stop
  | String c s' =>
      match digit_of c with
      | Some d =>
          scanDigits s' (10 * num + d)%Z (if frac then S scale else scale) frac true
      | None =>
          if (Ascii.eqb c "." && negb frac)%bool then scanDigits s' num scale true seen
          else stop
      end
  end.

Definition scanDecimal (s : string) : option (bool * Z * nat) :=
  match s with
  | String "-" s' => (λ r, (true, r.1, r.2)) <$> scanDigits s' 0 0 false false
  | String "+" s' => (λ r, (false, r.1, r.2)) <$> scanDigits s' 0 0 false false
  | _ => (λ r, (false, r.1, r.2)) <$> scanDigits s 0 0 false false
  end.

Definition parseDecimal (s : string) : option R :=
  (λ r : bool * Z * nat,
     let '(neg, num, scale) := r in
     (if neg then - IZR num else IZR num) / 10 ^ scale) <$> scanDecimal s.

Fixpoint pad_zeros (k : nat) (s : string) : string :=
  match k with
  | O => s
  | S k' => String "0" (pad_zeros k' s)
  end.

Definition toFixedDecimal (x : R) (f : nat) : string :=
  let n := Zfloor (Rabs x * 10 ^ f + / 2) in
  let m := pretty n in
  let m := pad_zeros (S f - String.length m) m in
  let k := (String.length m - f)%nat in
  let body := if decide (f = 0%nat) then m
              else substring 0 k m +:+ "." +:+ substring k f m in
  if decide (x < 0) then "-" +:+ body else body.

(** Sample requests of the examples: 10 units of a token the market data
    prices at 0, and a token whose balance is not a number. *)
Definition unpriced_token : Token :=
  {| address := "0xAAAA"; symbol := "AAA"; balance := "10" |}.

Definition unpriced_data : gmap string PriceInfo :=
  {[ "0xaaaa"%string := {| price := Some 0; volatility24h := Some 2 |} ]}.

Definition unpriced_slippage : gmap string SlippageInfo :=
  {[ "0xaaaa"%string := {| slippage := Some 1; estimatedFee := Some 0.5 |} ]}.


Definition unparsable_token : Token :=
  {| address := "0xBBBB"; symbol := "BBB"; balance := "n/a" |}.

(** The "perfect" asset: 1000 USD, volatility 0 %, slippage 0 %. *)
Definition perfect_token : Token :=
  {| address := "0xCCCC"; symbol := "CCC"; balance := "1000" |}.

Definition perfect_data : gmap string PriceInfo :=
  {[ "0xcccc"%string := {| price := Some 1; volatility24h := Some 0 |} ]}.

Definition perfect_slippage : gmap string SlippageInfo :=
  {[ "0xcccc"%string := {| slippage := Some 0; estimatedFee := Some 0 |} ]}.

(** A token with 150 % volatility and 20 % slippage. *)
Definition volatile_token : Token :=
  {| address := "0xDDDD"; symbol := "DDD"; balance := "10" |}.

Definition volatile_data : gmap string PriceInfo :=
  {[ "0xdddd"%string := {| price := Some 2; volatility24h := Some 150 |} ]}.

Definition volatile_slippage : gmap string SlippageInfo :=
  {[ "0xdddd"%string := {| slippage := Some 20; estimatedFee := Some 10 |} ]}.

(** A service that stored the price of DAI at time 1000, with a clock that
    reads [now]. *)
Definition dai : string := "0x6b175474e89094c44da98b954eedeac495271d0f".

Definition dai_cached (now : R) : ServiceState :=
  {| priceCache := <[dai +:+ "_time" := 1000]> (<[dai := 1]> ∅);
     volatilityCache := ∅; cacheTTL := 5 * 60 * 1000;
     clock := λ _, now; clock_next := 0;
     random := λ _, 0.5; random_next := 0 |}.

Definition dai_token : Token :=
  {| address := "0x6B175474E89094C44Da98b954EedeAC495271d0F"; symbol := "DAI";
     balance := "1000" |}.

(** A provider that is down. *)
Definition provider_down (addresses : list string) : M (gmap string R) :=
  throw (ProviderError "timeout").

(** 1000 DAI at 1 USD, 0.2 % volatility and 0.1 % slippage. *)
Definition dai_data : gmap string PriceInfo :=
  {[ dai := {| price := Some 1.0; volatility24h := Some 0.2 |} ]}.

Definition dai_slippage : gmap string SlippageInfo :=
  {[ dai := {| slippage := Some 0.1; estimatedFee := Some 0.05 |} ]}.

(** ** The arithmetic of the score in IEEE 754 binary64

    The formulas of [scoreTokens] on the doubles JavaScript computes with,
    to check the values the properties pin down where rounding could
    matter. *)

Definition js_or64 (v d : float) : float :=
  if (PrimFloat.is_nan v || PrimFloat.eqb v 0)%bool then d else v.

Definition volatilityScore64 (volatility : float) : float :=
  (1 - volatility / 100)%float.

Definition slippageScore64 (slippage : float) : float :=
  (1 - slippage / 10)%float.

Definition score64 (balanceScore volatilityScore slippageScore : float) : float :=
  (0.4 * balanceScore + 0.3 * volatilityScore + 0.3 * slippageScore)%float.

Definition lowBalanceScore64 (usdBalance : float) : float :=
  (0.3 * (usdBalance / 5))%float.

(** The volatile token of above in a larger wallet. *)
Definition volatile_token_large : Token :=
  {| address := "0xDDDD"; symbol := "DDD"; balance := "1000" |}.

(** A cache that holds positive numbers only. *)
Definition positive_values (m : gmap string R) : Prop :=
  ∀ key v, m !! key = Some v → 0 < v.

(** A running service: [Date.now()] is positive, [Math.random()] lies in
    [0, 1), and the two caches hold positive numbers only, as they do after
    the constructor. *)
Definition service_ok (σ : ServiceState) : Prop :=
  (∀ n, 0 < clock σ n) ∧ (∀ k, 0 <= random σ k < 1)
  ∧ positive_values (priceCache σ) ∧ positive_values (volatilityCache σ).

(** The tables [mockPrices], [mockVolatility] and [mockSlippage] and the
    result objects of the price service are plain objects: read at the name
    of a member of [Object.prototype] they answer with the inherited member,
    and an assignment to [__proto__] creates no entry.  The maps that model
    them hold own properties only, so the properties of the service below are
    stated for addresses that are none of these names (of which only
    [constructor] and [__proto__] are left unchanged by [toLowerCase]). *)
Definition Object_prototype : list string :=
  ["constructor"; "__defineGetter__"; "__defineSetter__"; "hasOwnProperty";
   "__lookupGetter__"; "__lookupSetter__"; "isPrototypeOf";
   "propertyIsEnumerable"; "toString"; "valueOf"; "__proto__";
   "toLocaleString"]%string.

Definition ownKey (key : string) : Prop := key ∉ Object_prototype.

(** The addresses [getPriceData] and [getSlippageData] work on. *)
Definition requestedAddresses (tokens : list Token) : list string :=
  (λ tok, toLowerCase (address tok)) <$> tokens.

(** * The Paymaster service ([PaymasterService])

    The service talks JSON-RPC to the Paymaster.  What comes back is not
    under the service's control, so a response is a JavaScript value: the
    JSON values and [undefined].  Numbers are finite; an object lists its
    properties in the order [Object.values] enumerates them, a name at most
    once.  The arguments the methods document as strings or token objects
    are typed as such. *)
Module PaymasterService.

#[warnings="-register-all"] Inductive json : Type :=
| JUndefined
| JNull
| JBool (b : bool)
| JNum (x : R)
| JStr (s : string)
| JArr (elements : list json)
| JObj (properties : list (string * json)).

(** What a method throws: a [TypeError] of the language, [new Error(message)],
    or whatever [paymasterProvider.send] rejects with. *)
Inductive error : Type :=
| TypeError
| Error (message : string)
| RpcError (reason : json).

Inductive outcome (A : Type) : Type :=
| Ok (a : A)
| Raise (e : error).
Arguments Ok {A} a.
Arguments Raise {A} e.

#[global] Instance outcome_ret : MRet outcome := λ A a, Ok a.
#[global] Instance outcome_bind : MBind outcome := λ A B f m,
  match m with
  | Ok a => f a
  | Raise e => Raise e
  end.

Definition truthy (v : json) : bool :=
  match v with
  | JUndefined | JNull => false
  | JBool b => b
  | JNum x => bool_decide (x ≠ 0)
  | JStr s => bool_decide (s ≠ ""%string)
  | JArr _ | JObj _ => true
  end.

(** [Array.isArray(v)] *)
Definition isArray (v : json) : bool :=
  match v with
  | JArr _ => true
  | _ => false
  end.

(** [v.key], for the property names the service reads ([tokens], [token],
    [address], [symbol], [decimals], [type], [paymentType], [tokenAmount],
    [tokenSymbol], [usdAmount], [gasPrice]): none of them is a property of a
    string, a number, a boolean or an array. *)
Definition prop (v : json) (key : string) : outcome json :=
  match v with
  | JUndefined | JNull => Raise TypeError
  | JObj properties =>
      Ok (default JUndefined
            (snd <$> List.find (λ p, String.eqb (fst p) key) properties))
  | _ => Ok JUndefined
  end.

(** [v.toLowerCase()]: a [TypeError] unless [v] is a string. *)
Definition toLowerCase_of (v : json) : outcome string :=
  match v with
  | JStr s => Ok (toLowerCase s)
  | _ => Raise TypeError
  end.

(** [array.map(f)] and [array.some(f)] with a callback that may throw;
    [some] stops at the first element for which [f] holds. *)
Fixpoint array_map {A B : Type} (f : A → outcome B) (l : list A) : outcome (list B) :=
  match l with
  | [] => Ok []
  | x :: l' => y ← f x; ys ← array_map f l'; Ok (y :: ys)
  end.

Fixpoint array_some {A : Type} (f : A → outcome bool) (l : list A) : outcome bool :=
  match l with
  | [] => Ok false
  | x :: l' => found ← f x; if found : bool then Ok true else array_some f l'
  end.

(** [token.address] of a token of the wallet, as opposed to the [address]
    of an entry of [this.supportedTokens] below. *)
Definition walletAddress (token : Token) : string := address token.

(** An entry of [this.supportedTokens]. *)
Record SupportedToken := {
  address : json;
  symbol : json;
  decimals : json;
  type : json
}.

(** [ethers.constants.AddressZero] and the UserOp sent with
    [pm_supported_tokens]. *)
Definition AddressZero : string := "0x0000000000000000000000000000000000000000".

Definition minimalUserOp : json :=
  JObj [("sender"%string, JStr AddressZero); ("nonce"%string, JStr "0x0");
        ("initCode"%string, JStr "0x"); ("callData"%string, JStr "0x");
        ("callGasLimit"%string, JStr "0x0");
        ("verificationGasLimit"%string, JStr "0x0");
        ("preVerificationGas"%string, JStr "0x0");
        ("maxFeePerGas"%string, JStr "0x0");
        ("maxPriorityFeePerGas"%string, JStr "0x0");
        ("paymasterAndData"%string, JStr "0x"); ("signature"%string, JStr "0x")].

(** The array the service reads the tokens from: [tokensResponse.tokens]
    when truthy, the response itself when it is an array, the first array
    among the values of a response object, and [[]] otherwise. *)
Definition responseTokens (tokensResponse : json) : outcome json :=
  standard ← prop tokensResponse "tokens";
  if truthy standard then Ok standard
  else if isArray tokensResponse then Ok tokensResponse
  else
    match tokensResponse with
    | JObj properties =>
        match List.find isArray (snd <$> properties) with
        | Some possibleTokensArray => Ok possibleTokensArray
        | None => Ok (JArr [])
        end
    | _ => Ok (JArr [])
    end.

(** The callback of [tokens.map]. *)
Definition normalizeToken (token : json) : outcome SupportedToken :=
  token_token ← prop token "token";
  token_address ← (if truthy token_token then Ok token_token else prop token "address");
  token_symbol ← prop token "symbol";
  token_decimals ← prop token "decimals";
  token_type ← prop token "type";
  token_kind ← (if truthy token_type then Ok token_type else prop token "paymentType");
  Ok {| address := token_address; symbol := token_symbol;
        decimals := token_decimals; type := token_kind |}.

(** [tokens.map(...)]: a [TypeError] when [tokens] has no [map]. *)
Definition normalizeTokens (tokens : json) : outcome (list SupportedToken) :=
  match tokens with
  | JArr elements => array_map normalizeToken elements
  | _ => Raise TypeError
  end.

(** The state of the service and of what it talks to: the fields of the
    object, the readings of [Date.now()], the answer of the Paymaster to the
    n-th request, and the requests sent so far. *)
Record State := {
  entryPoint : string;
  apiKey : json;
  supportedTokens : option (list SupportedToken);
  supportedTokensTimestamp : R;
  cacheTTL : R;
  clock : nat → R;
  clock_next : nat;
  paymasterProvider : nat → string → list json → outcome json;
  sent : list (string * list json)
}.

(** The constructor, with the two environment variables it reads. *)
Definition new_PaymasterService (ENTRYPOINT_ADDRESS PAYMASTER_API_KEY : option string)
    (clock : nat → R) (provider : nat → string → list json → outcome json) : State :=
  {| entryPoint :=
       match ENTRYPOINT_ADDRESS with
       | Some a => if bool_decide (a ≠ ""%string) then a
                   else "0x5FF137D4b0FDCD49DcA30c7CF57E578a026d2789"%string
       | None => "0x5FF137D4b0FDCD49DcA30c7CF57E578a026d2789"%string
       end;
     apiKey := from_option JStr JUndefined PAYMASTER_API_KEY;
     supportedTokens := None; supportedTokensTimestamp := 0;
     cacheTTL := 10 * 60 * 1000;
     clock := clock; clock_next := 0;
     paymasterProvider := provider; sent := [] |}.

Definition PM (A : Type) : Type := State → outcome A * State.

#[global] Instance PM_ret : MRet PM := λ A a σ, (Ok a, σ).
#[global] Instance PM_bind : MBind PM := λ A B f m σ,
  match m σ with
  | (Ok a, σ') => f a σ'
  | (Raise e, σ') => (Raise e, σ')
  end.

Definition gets {A : Type} (f : State → A) : PM A := λ σ, (Ok (f σ), σ).

Definition lift {A : Type} (o : outcome A) : PM A := λ σ, (o, σ).

Definition throw {A : Type} (e : error) : PM A := λ σ, (Raise e, σ).

Definition try_catch {A : Type} (m : PM A) (h : error → PM A) : PM A := λ σ,
  match m σ with
  | (Ok a, σ') => (Ok a, σ')
  | (Raise e, σ') => h e σ'
  end.

Definition Date_now : PM R := λ σ,
  (Ok (clock σ (clock_next σ)),
   {| entryPoint := entryPoint σ; apiKey := apiKey σ;
      supportedTokens := supportedTokens σ;
      supportedTokensTimestamp := supportedTokensTimestamp σ;
      cacheTTL := cacheTTL σ; clock := clock σ; clock_next := S (clock_next σ);
      paymasterProvider := paymasterProvider σ; sent := sent σ |}).

(** [this.paymasterProvider.send(method, params)] *)
Definition send (method : string) (params : list json) : PM json := λ σ,
  (paymasterProvider σ (length (sent σ)) method params,
   {| entryPoint := entryPoint σ; apiKey := apiKey σ;
      supportedTokens := supportedTokens σ;
      supportedTokensTimestamp := supportedTokensTimestamp σ;
      cacheTTL := cacheTTL σ; clock := clock σ; clock_next := clock_next σ;
      paymasterProvider := paymasterProvider σ;
      sent := sent σ ++ [(method, params)] |}).

Definition set_supportedTokens (tokens : list SupportedToken) : PM unit := λ σ,
  (Ok (),
   {| entryPoint := entryPoint σ; apiKey := apiKey σ;
      supportedTokens := Some tokens;
      supportedTokensTimestamp := supportedTokensTimestamp σ;
      cacheTTL := cacheTTL σ; clock := clock σ; clock_next := clock_next σ;
      paymasterProvider := paymasterProvider σ; sent := sent σ |}).

Definition set_supportedTokensTimestamp (t : R) : PM unit := λ σ,
  (Ok (),
   {| entryPoint := entryPoint σ; apiKey := apiKey σ;
      supportedTokens := supportedTokens σ;
      supportedTokensTimestamp := t;
      cacheTTL := cacheTTL σ; clock := clock σ; clock_next := clock_next σ;
      paymasterProvider := paymasterProvider σ; sent := sent σ |}).

(** The request of [getSupportedTokens]. *)
Definition supportedTokensRequest (σ : State) : string * list json :=
  ("pm_supported_tokens"%string, [minimalUserOp; apiKey σ; JStr (entryPoint σ)]).

(** The [try] block of [getSupportedTokens]. *)
Definition fetchSupportedTokens : PM (list SupportedToken) :=
  key ← gets apiKey;
  entry ← gets entryPoint;
  tokensResponse ← send "pm_supported_tokens" [minimalUserOp; key; JStr entry];
  tokens ← lift (responseTokens tokensResponse);
  normalizedTokens ← lift (normalizeTokens tokens);
  set_supportedTokens normalizedTokens;;
  now ← Date_now;
  set_supportedTokensTimestamp now;;
  mret normalizedTokens.

(** [getSupportedTokens].  [this.supportedTokens] is [null] or an array, and
    an array is truthy also when empty; the clock is read only then. *)
Definition getSupportedTokens : PM (list SupportedToken) :=
  cached ← gets supportedTokens;
  fresh ←
    match cached with
    | Some _ =>
        now ← Date_now;
        timestamp ← gets supportedTokensTimestamp;
        ttl ← gets cacheTTL;
        mret (bool_decide (now - timestamp <= ttl))
    | None => mret false
    end;
  match cached, fresh with
  | Some tokens, true => mret tokens
  | _, _ =>
      try_catch fetchSupportedTokens
        (λ error,
           cached ← gets supportedTokens;
           mret (default [] cached))
  end.

(** What the [try] block of [getSupportedTokens] makes of the provider's
    answer. *)
Definition parseResponse (answer : outcome json) : outcome (list SupportedToken) :=
  tokensResponse ← answer;
  tokens ← responseTokens tokensResponse;
  normalizeTokens tokens.

(** The Paymaster's answer to the request [getSupportedTokens] would send
    now, and the test that lets the call serve the cache instead. *)
Definition supportedTokensAnswer (σ : State) : outcome json :=
  paymasterProvider σ (length (sent σ)) (fst (supportedTokensRequest σ))
    (snd (supportedTokensRequest σ)).

Definition cacheFresh (σ : State) : bool :=
  match supportedTokens σ with
  | Some _ =>
      bool_decide (clock σ (clock_next σ) - supportedTokensTimestamp σ <= cacheTTL σ)
  | None => false
  end.

(** [supportedTokens.some(token => token.address.toLowerCase() ===
    normalizedAddress)] *)
Definition someSupported (supportedTokens : list SupportedToken)
    (normalizedAddress : string) : outcome bool :=
  array_some (λ token,
      a ← toLowerCase_of (address token);
      Ok (bool_decide (a = normalizedAddress)))
    supportedTokens.

(** [isTokenSupported] *)
Definition isTokenSupported (tokenAddress : string) : PM bool :=
  supportedTokens ← getSupportedTokens;
  let normalizedAddress := toLowerCase tokenAddress in
  lift (someSupported supportedTokens normalizedAddress).

(** [supportedTokens.map(token => token.address.toLowerCase())] *)
Definition supportedAddressesOf (supportedTokens : list SupportedToken)
    : outcome (list string) :=
  array_map (λ token, toLowerCase_of (address token)) supportedTokens.

(** [filterSupportedTokens], on the tokens of a wallet. *)
Definition filterSupportedTokens (userTokens : list Token) : PM (list Token) :=
  supportedTokens ← getSupportedTokens;
  supportedAddresses ← lift (supportedAddressesOf supportedTokens);
  mret (filter (λ token, toLowerCase (walletAddress token) ∈ supportedAddresses)
          userTokens).

(** [getSupportedPaymentTypes] *)
Record PaymentType := { id : R; name : string; description : string }.

Definition getSupportedPaymentTypes : PM (list PaymentType) :=
  mret [ {| id := 0; name := "Sponsored";
            description := "Free gas (developer pays)" |};
         {| id := 1; name := "Prepay";
            description := "Pay with ERC20 tokens (upfront)" |};
         {| id := 2; name := "Postpay";
            description := "Pay with ERC20 tokens (after execution)" |} ].

(** [[0, 1, 2].includes(type)] and [type === 1 || type === 2] *)
Definition isPaymentType (type : json) : bool :=
  match type with
  | JNum x => bool_decide (x = 0 ∨ x = 1 ∨ x = 2)
  | _ => false
  end.

Definition paysWithToken (type : json) : bool :=
  match type with
  | JNum x => bool_decide (x = 1 ∨ x = 2)
  | _ => false
  end.

(** [getPaymasterData].  [toString] renders a value inside a template
    literal; an [undefined] token address is replaced by the default
    [null]. *)
Section GetPaymasterData.
Variable toString : json → string.

Definition getPaymasterData (userOp type tokenAddress : json) : PM json :=
  let tokenAddress := match tokenAddress with JUndefined => JNull | _ => tokenAddress end in
  if negb (isPaymentType type) then
    throw (Error ("Invalid payment type: " +:+ toString type))
  else if paysWithToken type && negb (truthy tokenAddress) then
    throw (Error ("Token address is required for payment type " +:+ toString type))
  else
    key ← gets apiKey;
    entry ← gets entryPoint;
    let params := [userOp; key; JStr entry] in
    let params :=
      if paysWithToken type
      then params ++ [JObj [("token"%string, tokenAddress); ("type"%string, type)]]
      else params in
    try_catch (send "pm_sponsorUserOperation" params) (λ error, throw error).
End GetPaymasterData.

(** [estimateGasCost] *)
Record GasCost := {
  tokenAmount : json;
  tokenSymbol : json;
  usdAmount : json;
  gasPrice : json
}.

Definition estimateGasCost (userOp tokenAddress : json) : PM GasCost :=
  try_catch
    (key ← gets apiKey;
     entry ← gets entryPoint;
     response ← send "pm_estimate"
                  [userOp; key; JStr entry; JObj [("token"%string, tokenAddress)]];
     amount ← lift (prop response "tokenAmount");
     symbol ← lift (prop response "tokenSymbol");
     usd ← lift (prop response "usdAmount");
     price ← lift (prop response "gasPrice");
     mret {| tokenAmount := if truthy amount then amount else JStr "0";
             tokenSymbol := if truthy symbol then symbol else JStr "";
             usdAmount := if truthy usd then usd else JStr "0";
             gasPrice := if truthy price then price else JStr "0" |})
    (λ error, throw error).

(** Sample data: a Paymaster that supports DAI, answering in the standard
    format; a Paymaster that is down; a service that cached the DAI entry at
    time 1000, with a clock that reads [now]. *)
Definition dai_entry : json :=
  JObj [("token"%string, JStr "0x6B175474E89094C44Da98b954EedeAC495271d0F");
        ("symbol"%string, JStr "DAI"); ("decimals"%string, JNum 18);
        ("type"%string, JNum 1)].

Definition dai_supported : SupportedToken :=
  {| address := JStr "0x6B175474E89094C44Da98b954EedeAC495271d0F";
     symbol := JStr "DAI"; decimals := JNum 18; type := JNum 1 |}.

Definition paymaster_up : nat → string → list json → outcome json :=
  λ _ _ _, Ok (JObj [("tokens"%string, JArr [dai_entry])]).

Definition paymaster_down : nat → string → list json → outcome json :=
  λ _ _ _, Raise (RpcError (JStr "timeout")).

Definition paymaster_cached (now : R)
    (provider : nat → string → list json → outcome json) : State :=
  {| entryPoint := "0x5FF137D4b0FDCD49DcA30c7CF57E578a026d2789";
     apiKey := JStr "key";
     supportedTokens := Some [dai_supported]; supportedTokensTimestamp := 1000;
     cacheTTL := 10 * 60 * 1000;
     clock := λ _, now; clock_next := 0;
     paymasterProvider := provider; sent := [] |}.

End PaymasterService.

(** * Properties *)

(** ** Operators *)

Lemma js_or_None (d : R) : js_or None d = d.
Proof. reflexivity. Qed.

Lemma js_or_zero (d : R) : js_or (Some 0) d = d.
Proof. unfold js_or. case_decide; [reflexivity | contradiction]. Qed.

Lemma js_or_nonzero (r d : R) : r ≠ 0 → js_or (Some r) d = r.
Proof. intros Hr. unfold js_or. case_decide; [contradiction | reflexivity]. Qed.

Lemma js_or_cases (v : option R) (d : R) :
  (js_or v d = d ∧ (v = None ∨ v = Some 0)) ∨ (v = Some (js_or v d) ∧ js_or v d ≠ 0).
Proof.
  destruct v as [r|]; simpl; [|left; auto].
  case_decide; subst; [left; auto | right; auto].
Qed.

Lemma truthy_Some (r : R) : truthy (Some r) = true ↔ r ≠ 0.
Proof. simpl. rewrite bool_decide_eq_true. reflexivity. Qed.

Lemma truthy_true (v : option R) :
  truthy v = true ↔ ∃ r, v = Some r ∧ r ≠ 0.
Proof.
  destruct v as [r|]; simpl.
  - rewrite bool_decide_eq_true. split; [eauto | intros (? & [= <-] & ?); assumption].
  - split; [discriminate | intros (? & [=] & _)].
Qed.

(** ** Sorting by a numeric key, largest first *)

Section SortByKey.
Context {A : Type} (key : A → R).

Local Abbreviation comparefn := (λ a b : A, key b - key a).
Local Abbreviation ge_key := (λ a b : A, key a >= key b).

Lemma sort_insert_perm (x : A) (l : list A) :
  sort_insert comparefn x l ≡ₚ x :: l.
Proof.
  induction l as [|y l IH]; simpl; [reflexivity|].
  case_decide; [|reflexivity].
  rewrite IH. apply Permutation_swap.
Qed.

Lemma sort_perm (l : list A) : sort comparefn l ≡ₚ l.
Proof.
  induction l as [|x l IH]; simpl; [reflexivity|].
  rewrite sort_insert_perm, IH. reflexivity.
Qed.

Lemma sort_insert_hd (x y : A) (l : list A) :
  ge_key y x → HdRel ge_key y l → HdRel ge_key y (sort_insert comparefn x l).
Proof.
  intros Hyx Hl. destruct l as [|z l]; simpl; [constructor; assumption|].
  case_decide; constructor; [|assumption].
  inversion Hl; assumption.
Qed.

Lemma sort_insert_sorted (x : A) (l : list A) :
  Sorted ge_key l → Sorted ge_key (sort_insert comparefn x l).
Proof.
  induction 1 as [|y l Hl IH Hhd]; simpl.
  - repeat constructor.
  - case_decide as Hc.
    + constructor; [assumption|].
      apply sort_insert_hd; [lra | assumption].
    + constructor; [constructor; assumption|].
      constructor. lra.
Qed.

Lemma sort_sorted (l : list A) : Sorted ge_key (sort comparefn l).
Proof.
  induction l as [|x l IH]; simpl; [constructor|].
  apply sort_insert_sorted, IH.
Qed.

Lemma sorted_head_max (x : A) (l : list A) :
  Sorted ge_key (x :: l) → ∀ y, y ∈ x :: l → key y <= key x.
Proof.
  intros Hs y Hy.
  apply Sorted_StronglySorted in Hs; [|intros a b c; simpl; lra].
  apply StronglySorted_inv in Hs as [_ Hall].
  apply elem_of_cons in Hy as [->|Hy]; [lra|].
  rewrite Forall_forall in Hall.
  specialize (Hall y Hy). simpl in Hall. lra.
Qed.

(** The sort is stable: tokens with the same key keep their order. *)
Lemma sort_insert_filter (k : R) (x : A) (l : list A) :
  filter (λ a, key a = k) (sort_insert comparefn x l)
  = filter (λ a, key a = k) (x :: l).
Proof.
  induction l as [|y l IH]; simpl; [reflexivity|].
  case_decide as Hc; [|reflexivity].
  rewrite filter_cons, IH, !filter_cons.
  repeat case_decide; try reflexivity; exfalso; lra.
Qed.

Lemma sort_stable (k : R) (l : list A) :
  filter (λ a, key a = k) (sort comparefn l) = filter (λ a, key a = k) l.
Proof.
  induction l as [|x l IH]; simpl; [reflexivity|].
  rewrite sort_insert_filter, !filter_cons, IH. reflexivity.
Qed.

(** A descending, stable arrangement of a list is unique: whatever
    algorithm [Array.prototype.sort] runs, it returns [sort]. *)
Lemma stable_sorted_unique (l1 l2 : list A) :
  Sorted ge_key l1 → Sorted ge_key l2 →
  (∀ k, filter (λ a, key a = k) l1 = filter (λ a, key a = k) l2) →
  l1 = l2.
Proof.
  revert l2. induction l1 as [|x l1 IH]; intros l2 Hs1 Hs2 Hfilter.
  - destruct l2 as [|y l2]; [reflexivity|].
    specialize (Hfilter (key y)). rewrite filter_cons, decide_True in Hfilter by reflexivity.
    discriminate.
  - destruct l2 as [|y l2].
    { specialize (Hfilter (key x)).
      rewrite filter_cons, decide_True in Hfilter by reflexivity. discriminate. }
    assert (Hxy : key x = key y).
    { assert (x ∈ y :: l2) as Hx.
      { pose proof (Hfilter (key x)) as Hf.
        rewrite filter_cons, decide_True in Hf by reflexivity.
        assert (x ∈ filter (λ a, key a = key x) (y :: l2)) as Hin
          by (rewrite <- Hf; apply elem_of_cons; auto).
        apply list_elem_of_filter in Hin as [_ Hin]. assumption. }
      assert (y ∈ x :: l1) as Hy.
      { pose proof (Hfilter (key y)) as Hf.
        rewrite (filter_cons _ y), decide_True in Hf by reflexivity.
        assert (y ∈ filter (λ a, key a = key y) (x :: l1)) as Hin
          by (rewrite Hf; apply elem_of_cons; auto).
        apply list_elem_of_filter in Hin as [_ Hin]. assumption. }
      pose proof (sorted_head_max y l2 Hs2 x Hx).
      pose proof (sorted_head_max x l1 Hs1 y Hy). lra. }
    pose proof (Hfilter (key x)) as Hhead.
    rewrite !filter_cons, decide_True in Hhead by reflexivity.
    rewrite decide_True in Hhead by (symmetry; assumption).
    injection Hhead as -> Htail.
    f_equal. apply IH.
    + apply Sorted_inv in Hs1 as [Hs1 _]. assumption.
    + apply Sorted_inv in Hs2 as [Hs2 _]. assumption.
    + intros k. specialize (Hfilter k). rewrite !filter_cons in Hfilter.
      destruct (decide (key y = k)); [injection Hfilter as Hfilter|]; assumption.
Qed.

Lemma sort_unique (l l' : list A) :
  Sorted ge_key l' →
  (∀ k, filter (λ a, key a = k) l' = filter (λ a, key a = k) l) →
  l' = sort comparefn l.
Proof.
  intros Hs Hfilter. apply stable_sorted_unique; [assumption | apply sort_sorted|].
  intros k. rewrite sort_stable. apply Hfilter.
Qed.
End SortByKey.

(** ** The balance score *)

Lemma exp_mult_nat (n : nat) (x : R) : exp (INR n * x) = exp x ^ n.
Proof.
  induction n as [|n IH].
  - simpl. rewrite Rmult_0_l. apply exp_0.
  - rewrite S_INR, Rmult_plus_distr_r, Rmult_1_l, exp_plus, IH. simpl. ring.
Qed.

Lemma exp_eighth : exp (/ 8) <= 8 / 7.
Proof.
  pose proof (exp_ineq1_le (- / 8)) as Hlow.
  rewrite exp_Ropp in Hlow.
  pose proof (exp_pos (/ 8)) as Hpos.
  apply (Rmult_le_compat_r (exp (/ 8))) in Hlow; [|lra].
  rewrite Rinv_l in Hlow by lra. lra.
Qed.

Lemma exp_three_halves : exp (3 / 2) < 5.
Proof.
  replace (3 / 2) with (INR 12 * / 8) by (simpl; lra).
  rewrite exp_mult_nat.
  apply Rle_lt_trans with ((8 / 7) ^ 12); [|lra].
  apply pow_incr. split; [left; apply exp_pos | apply exp_eighth].
Qed.

Lemma exp_five : exp 5 < 1000.
Proof.
  replace 5 with (INR 5 * 1) by (simpl; lra).
  rewrite exp_mult_nat.
  apply Rle_lt_trans with (3 ^ 5); [|lra].
  apply pow_incr. split; [left; apply exp_pos | apply exp_le_3].
Qed.

Lemma ln_le_mono (x y : R) : 0 < x → x <= y → ln x <= ln y.
Proof.
  intros Hx [Hlt| ->]; [left; apply ln_increasing; assumption | right; reflexivity].
Qed.

Lemma ln_five : 3 / 2 < ln 5.
Proof.
  rewrite <- (ln_exp (3 / 2)).
  apply ln_increasing; [apply exp_pos | apply exp_three_halves].
Qed.

(** The two regimes of [_normalizeBalance]. *)
Lemma normalizeBalance_linear (u : R) :
  u < 5 → _normalizeBalance u = 0.3 * (u / 5).
Proof. intros Hu. unfold _normalizeBalance. case_decide; [reflexivity | contradiction]. Qed.

Lemma normalizeBalance_log (u : R) :
  5 <= u → _normalizeBalance u = Rmin 1 (ln u / 5).
Proof. intros Hu. unfold _normalizeBalance. case_decide; [lra | reflexivity]. Qed.

(** At the threshold the score jumps upwards, from below 0.3 to [ln 5 / 5]. *)
Lemma normalizeBalance_threshold : 0.3 < _normalizeBalance 5.
Proof.
  rewrite normalizeBalance_log by lra.
  pose proof ln_five. apply Rmin_glb_lt; lra.
Qed.

(** The score is 1 from [exp 5] on. *)
Lemma normalizeBalance_max (u : R) : exp 5 <= u → _normalizeBalance u = 1.
Proof.
  intros Hu.
  pose proof (exp_ineq1_le 5) as H5.
  rewrite normalizeBalance_log by lra.
  apply Rmin_left.
  assert (5 <= ln u).
  { rewrite <- (ln_exp 5). apply ln_le_mono; [apply exp_pos | assumption]. }
  lra.
Qed.

Lemma normalizeBalance_range (u : R) : 0 <= u → 0 <= _normalizeBalance u <= 1.
Proof.
  intros Hu. destruct (Rlt_le_dec u 5) as [Hlt|Hge].
  - rewrite normalizeBalance_linear by assumption. lra.
  - rewrite normalizeBalance_log by assumption. split; [|apply Rmin_l].
    apply Rmin_glb; [lra|].
    assert (ln 5 <= ln u) by (apply ln_le_mono; lra).
    pose proof ln_five. lra.
Qed.

(** C7: the balance score never decreases when the USD balance grows, within
    the linear regime, within the logarithmic regime and across the
    threshold of 5 USD. *)
Theorem normalizeBalance_monotone (u1 u2 : R) :
  0 <= u1 → u1 <= u2 → _normalizeBalance u1 <= _normalizeBalance u2.
Proof.
  intros H0 Hle.
  destruct (Rlt_le_dec u1 5) as [H1|H1]; destruct (Rlt_le_dec u2 5) as [H2|H2].
  - rewrite !normalizeBalance_linear by assumption. lra.
  - rewrite normalizeBalance_linear by assumption.
    apply Rle_trans with (_normalizeBalance 5).
    + left. apply Rlt_trans with 0.3; [lra | apply normalizeBalance_threshold].
    + rewrite !normalizeBalance_log by lra.
      apply Rle_min_compat_l.
      assert (ln 5 <= ln u2) by (apply ln_le_mono; lra). lra.
  - lra.
  - rewrite !normalizeBalance_log by assumption.
    apply Rle_min_compat_l.
    assert (ln u1 <= ln u2) by (apply ln_le_mono; lra). lra.
Qed.

Lemma normalizeBalance_monotone_witness :
  0 <= 4.99 ∧ 4.99 <= 5 ∧ _normalizeBalance 4.99 <= _normalizeBalance 5.
Proof.
  split; [lra|]. split; [lra|].
  apply (normalizeBalance_monotone 4.99 5); lra.
Defined.

(** ** The scorer *)

Section ScorerProperties.
Variable parseFloat : string → option R.
Variable toFixed : R → nat → string.

Local Abbreviation scoreToken' := (scoreToken parseFloat toFixed).
Local Abbreviation scoreTokens' := (scoreTokens parseFloat toFixed).

(** On a non-empty array with market data, [scoreTokens] returns the
    scored tokens, sorted, and the first of them. *)
Lemma scoreTokens_nonempty (tokens : list Token)
    (priceData : gmap string PriceInfo) (slippageData : gmap string SlippageInfo) :
  tokens ≠ [] →
  scoreTokens' (Some tokens) (Some priceData) (Some slippageData)
  = let sortedTokens :=
      sort (λ a b, score b - score a) (scoreToken' priceData slippageData <$> tokens) in
    Return (Some {| recommendedToken := sortedTokens !! 0%nat;
                    allScores := sortedTokens |}).
Proof. destruct tokens; [contradiction | reflexivity]. Qed.

(** Every token of the request has its score in [allScores]. *)
Lemma scoreTokens_scores_each (tokens : list Token)
    (priceData : gmap string PriceInfo) (slippageData : gmap string SlippageInfo)
    (tok : Token) :
  tok ∈ tokens →
  ∃ rec, scoreTokens' (Some tokens) (Some priceData) (Some slippageData)
         = Return (Some rec)
         ∧ scoreToken' priceData slippageData tok ∈ allScores rec.
Proof.
  intros Hin. eexists. split.
  - apply scoreTokens_nonempty. intros ->. inversion Hin.
  - simpl. rewrite sort_perm. apply list_elem_of_fmap_2. assumption.
Qed.

(** C3: for a non-empty request, [allScores] is the scored tokens in
    descending order of score and [recommendedToken] is its first element,
    whose score is at least that of every scored token. *)
Theorem scoreTokens_sorted_descending (tokens : list Token)
    (priceData : gmap string PriceInfo) (slippageData : gmap string SlippageInfo) :
  tokens ≠ [] →
  ∃ top rest,
    scoreTokens' (Some tokens) (Some priceData) (Some slippageData)
    = Return (Some {| recommendedToken := Some top; allScores := top :: rest |})
    ∧ Sorted (λ a b, score a >= score b) (top :: rest)
    ∧ top :: rest ≡ₚ scoreToken' priceData slippageData <$> tokens
    ∧ ∀ t, t ∈ top :: rest → score t <= score top.
Proof.
  intros Hne. rewrite scoreTokens_nonempty by assumption. simpl.
  set (scored := scoreToken' priceData slippageData <$> tokens).
  pose proof (sort_perm score scored) as Hperm.
  pose proof (sort_sorted score scored) as Hsorted.
  destruct (sort (λ a b, score b - score a) scored) as [|top rest] eqn:Hs.
  - apply Permutation_nil in Hperm. subst scored.
    apply fmap_nil_inv in Hperm. contradiction.
  - exists top, rest. repeat split; try assumption.
    apply (sorted_head_max score). assumption.
Qed.

(** C9: an absent or empty array of tokens gives [null], not an exception,
    whatever the market data, even when it is missing. *)
Theorem scoreTokens_empty_returns_null
    (priceData : option (gmap string PriceInfo))
    (slippageData : option (gmap string SlippageInfo)) :
  scoreTokens' None priceData slippageData = Return None
  ∧ scoreTokens' (Some []) priceData slippageData = Return None.
Proof. split; reflexivity. Qed.

(** A request with tokens but without market data, by contrast, throws. *)
Lemma scoreTokens_missing_data_throws (tokens : list Token)
    (priceData : option (gmap string PriceInfo))
    (slippageData : option (gmap string SlippageInfo)) :
  tokens ≠ [] →
  priceData = None ∨ slippageData = None →
  scoreTokens' (Some tokens) priceData slippageData = Throw TypeError.
Proof.
  intros Hne Hmissing. destruct tokens; [contradiction|].
  destruct Hmissing as [-> | ->]; [reflexivity|].
  destruct priceData; reflexivity.
Qed.

(** The three outcomes of the callback, by the guards of the source. *)
Lemma scoreToken_zero_balance (priceData : gmap string PriceInfo)
    (slippageData : gmap string SlippageInfo) (tok : Token) :
  tokenBalance parseFloat tok * tokenPrice priceData tok <= 0 →
  scoreToken' priceData slippageData tok = zero_balance_result tok.
Proof.
  intros Hle. unfold scoreToken.
  fold (tokenBalance parseFloat tok) (tokenPrice priceData tok).
  case_decide; [reflexivity | contradiction].
Qed.

Lemma scoreToken_no_price (priceData : gmap string PriceInfo)
    (slippageData : gmap string SlippageInfo) (tok : Token) :
  tokenBalance parseFloat tok * tokenPrice priceData tok > 0 →
  tokenPrice priceData tok <= 0 →
  scoreToken' priceData slippageData tok = no_price_result tok.
Proof.
  intros Hgt Hle. unfold scoreToken.
  fold (tokenBalance parseFloat tok) (tokenPrice priceData tok).
  case_decide; [lra|]. case_decide; [reflexivity | contradiction].
Qed.

Lemma scoreToken_scored (priceData : gmap string PriceInfo)
    (slippageData : gmap string SlippageInfo) (tok : Token) :
  let usd := tokenBalance parseFloat tok * tokenPrice priceData tok in
  let volatility := tokenVolatility priceData tok in
  let slippage := tokenSlippage slippageData tok in
  usd > 0 →
  tokenPrice priceData tok > 0 →
  scoreToken' priceData slippageData tok
  = {| token := tok; usdBalance := Some usd;
       volatilityScore := Some (1 - volatility / 100);
       slippageScore := Some (1 - slippage / 10);
       score := 0.4 * _normalizeBalance usd + 0.3 * (1 - volatility / 100)
                + 0.3 * (1 - slippage / 10);
       reasons := _generateReasons toFixed usd volatility slippage |}.
Proof.
  intros usd volatility slippage Hgt Hp. unfold scoreToken.
  fold (tokenBalance parseFloat tok) (tokenPrice priceData tok)
    (tokenVolatility priceData tok) (tokenSlippage slippageData tok).
  fold usd volatility slippage.
  case_decide; [lra|]. case_decide; [lra|]. reflexivity.
Qed.

(** A price of 0, stated or missing, makes the USD balance 0: the token
    takes the zero-balance branch whatever its balance. *)
Lemma zero_price_is_zero_balance (priceData : gmap string PriceInfo)
    (slippageData : gmap string SlippageInfo) (tok : Token) :
  tokenPrice priceData tok = 0 →
  scoreToken' priceData slippageData tok = zero_balance_result tok.
Proof. intros Hp. apply scoreToken_zero_balance. rewrite Hp. lra. Qed.

(** The no-price branch is only taken by a negative balance at a negative
    price. *)
Lemma no_price_branch_iff (priceData : gmap string PriceInfo)
    (slippageData : gmap string SlippageInfo) (tok : Token) :
  scoreToken' priceData slippageData tok = no_price_result tok
  ↔ tokenBalance parseFloat tok < 0 ∧ tokenPrice priceData tok < 0.
Proof.
  split.
  - intros Heq.
    destruct (decide (tokenBalance parseFloat tok * tokenPrice priceData tok <= 0))
      as [Hle|Hgt].
    + rewrite scoreToken_zero_balance in Heq by assumption. discriminate.
    + destruct (decide (tokenPrice priceData tok <= 0)) as [Hp|Hp].
      * apply Rnot_le_gt in Hgt.
        set (b := tokenBalance parseFloat tok) in *.
        set (p := tokenPrice priceData tok) in *.
        assert (p < 0) as Hneg.
        { destruct (Req_dec p 0) as [Hz|Hz]; [rewrite Hz in Hgt; lra | lra]. }
        split; [|assumption].
        destruct (Rlt_le_dec b 0) as [Hb|Hb]; [assumption|].
        assert (b * p <= 0) by nra. lra.
      * rewrite scoreToken_scored in Heq by lra. discriminate.
  - intros [Hb Hp]. apply scoreToken_no_price; nra.
Qed.

(** C10: a token whose balance does not parse as a number is scored with
    balance 0: its entry in [allScores] has score 0 and the single reason
    "Zero balance", and the call returns. *)
Theorem unparsable_balance_scores_zero (tokens : list Token)
    (priceData : gmap string PriceInfo) (slippageData : gmap string SlippageInfo)
    (tok : Token) :
  tok ∈ tokens →
  parseFloat (balance tok) = None →
  tokenBalance parseFloat tok = 0
  ∧ scoreToken' priceData slippageData tok = zero_balance_result tok
  ∧ ∃ rec, scoreTokens' (Some tokens) (Some priceData) (Some slippageData)
           = Return (Some rec)
           ∧ zero_balance_result tok ∈ allScores rec.
Proof.
  intros Hin Hnan.
  assert (Hb : tokenBalance parseFloat tok = 0).
  { unfold tokenBalance. rewrite Hnan. reflexivity. }
  assert (Hz : scoreToken' priceData slippageData tok = zero_balance_result tok).
  { apply scoreToken_zero_balance. rewrite Hb. lra. }
  repeat split; try assumption.
  destruct (scoreTokens_scores_each tokens priceData slippageData tok Hin)
    as (rec & Hrec & Hmem).
  exists rec. rewrite <- Hz. split; assumption.
Qed.

(** C8: the sub-scores are not clamped below 0.  For a token with a
    positive balance and price, a volatility above 100 gives the negative
    volatility score [1 - v / 100] ([-0.5] at 150) and a slippage above 10
    the negative slippage score [1 - s / 10]; either enters the composite
    with its weight and so lowers it below what the other two factors
    give. *)
Theorem subscores_not_clamped (priceData : gmap string PriceInfo)
    (slippageData : gmap string SlippageInfo) (tok : Token) (b p : R) :
  parseFloat (balance tok) = Some b → b > 0 →
  priceData !! toLowerCase (address tok) ≫= price = Some p → p > 0 →
  let st := scoreToken' priceData slippageData tok in
  let nb := _normalizeBalance (b * p) in
  (∀ v, priceData !! toLowerCase (address tok) ≫= volatility24h = Some v →
        v > 100 →
        volatilityScore st = Some (1 - v / 100)
        ∧ 1 - v / 100 < 0
        ∧ (v = 150 → volatilityScore st = Some (-0.5))
        ∧ score st = 0.4 * nb + 0.3 * (1 - v / 100)
                     + 0.3 * (1 - tokenSlippage slippageData tok / 10)
        ∧ score st < 0.4 * nb + 0.3 * (1 - tokenSlippage slippageData tok / 10))
  ∧ (∀ s, slippageData !! toLowerCase (address tok) ≫= slippage = Some s →
          s > 10 →
          slippageScore st = Some (1 - s / 10)
          ∧ 1 - s / 10 < 0
          ∧ score st = 0.4 * nb + 0.3 * (1 - tokenVolatility priceData tok / 100)
                       + 0.3 * (1 - s / 10)
          ∧ score st < 0.4 * nb + 0.3 * (1 - tokenVolatility priceData tok / 100)).
Proof.
  intros Hb Hbpos Hp Hppos st nb.
  assert (Hbal : tokenBalance parseFloat tok = b).
  { unfold tokenBalance. rewrite Hb. apply js_or_nonzero. lra. }
  assert (Hprice : tokenPrice priceData tok = p).
  { unfold tokenPrice. rewrite Hp. apply js_or_nonzero. lra. }
  assert (Hst : st = scoreToken' priceData slippageData tok) by reflexivity.
  rewrite scoreToken_scored in Hst by (rewrite ?Hbal, ?Hprice; nra).
  rewrite Hbal, Hprice in Hst. fold nb in Hst.
  split.
  - intros v Hv Hvbig.
    assert (Hvol : tokenVolatility priceData tok = v).
    { unfold tokenVolatility. rewrite Hv. apply js_or_nonzero. lra. }
    rewrite Hvol in Hst. rewrite Hst. simpl.
    repeat split; try lra.
    intros ->. f_equal. lra.
  - intros s Hs Hsbig.
    assert (Hslip : tokenSlippage slippageData tok = s).
    { unfold tokenSlippage. rewrite Hs. apply js_or_nonzero. lra. }
    rewrite Hslip in Hst. rewrite Hst. simpl.
    repeat split; lra.
Qed.

(** A volatility or a slippage of 0 is falsy: the fallback, 100 or 10,
    takes its place and the sub-score is 0, not 1. *)
Lemma zero_volatility_falls_back (priceData : gmap string PriceInfo) (tok : Token) :
  priceData !! toLowerCase (address tok) ≫= volatility24h = Some 0 →
  tokenVolatility priceData tok = 100.
Proof. intros Hv. unfold tokenVolatility. rewrite Hv. apply js_or_zero. Qed.

Lemma zero_slippage_falls_back (slippageData : gmap string SlippageInfo) (tok : Token) :
  slippageData !! toLowerCase (address tok) ≫= slippage = Some 0 →
  tokenSlippage slippageData tok = 10.
Proof. intros Hs. unfold tokenSlippage. rewrite Hs. apply js_or_zero. Qed.

(** The "perfect" asset therefore only collects the balance weight. *)
Lemma perfect_asset_score (priceData : gmap string PriceInfo)
    (slippageData : gmap string SlippageInfo) (tok : Token) :
  exp 5 <= tokenBalance parseFloat tok * tokenPrice priceData tok →
  tokenPrice priceData tok > 0 →
  priceData !! toLowerCase (address tok) ≫= volatility24h = Some 0 →
  slippageData !! toLowerCase (address tok) ≫= slippage = Some 0 →
  let st := scoreToken' priceData slippageData tok in
  volatilityScore st = Some 0 ∧ slippageScore st = Some 0 ∧ score st = 0.4.
Proof.
  intros Husd Hp Hv Hs st. subst st.
  pose proof (exp_pos 5).
  rewrite scoreToken_scored by lra. simpl.
  rewrite (zero_volatility_falls_back _ _ Hv), (zero_slippage_falls_back _ _ Hs).
  rewrite normalizeBalance_max by assumption.
  repeat split; try (f_equal; lra); lra.
Qed.

(** With non-negative volatility and slippage no token reaches the
    composite score 1. *)
Lemma score_below_one (priceData : gmap string PriceInfo)
    (slippageData : gmap string SlippageInfo) (tok : Token) :
  (∀ v, priceData !! toLowerCase (address tok) ≫= volatility24h = Some v → 0 <= v) →
  (∀ s, slippageData !! toLowerCase (address tok) ≫= slippage = Some s → 0 <= s) →
  score (scoreToken' priceData slippageData tok) < 1.
Proof.
  intros Hv Hs.
  destruct (decide (tokenBalance parseFloat tok * tokenPrice priceData tok <= 0))
    as [Hle|Hgt].
  { rewrite scoreToken_zero_balance by assumption. simpl. lra. }
  destruct (decide (tokenPrice priceData tok <= 0)) as [Hp|Hp].
  { rewrite scoreToken_no_price by lra. simpl. lra. }
  rewrite scoreToken_scored by lra. simpl.
  assert (0 < tokenVolatility priceData tok) as Hvol.
  { unfold tokenVolatility.
    destruct (js_or_cases (priceData !! toLowerCase (address tok) ≫= volatility24h) 100)
      as [[-> _]|[Hsome Hnz]]; [lra|].
    specialize (Hv _ Hsome). lra. }
  assert (0 < tokenSlippage slippageData tok) as Hslip.
  { unfold tokenSlippage.
    destruct (js_or_cases (slippageData !! toLowerCase (address tok) ≫= slippage) 10)
      as [[-> _]|[Hsome Hnz]]; [lra|].
    specialize (Hs _ Hsome). lra. }
  pose proof (normalizeBalance_range
                (tokenBalance parseFloat tok * tokenPrice priceData tok)).
  lra.
Qed.
End ScorerProperties.

(** ** The scorer on the sample requests *)

Lemma parseDecimal_scan (s : string) (neg : bool) (num : Z) (scale : nat) :
  scanDecimal s = Some (neg, num, scale) →
  parseDecimal s = Some ((if neg then - IZR num else IZR num) / 10 ^ scale).
Proof. intros Hs. unfold parseDecimal. rewrite Hs. reflexivity. Qed.

Lemma parseDecimal_10 : parseDecimal "10" = Some 10.
Proof. rewrite (parseDecimal_scan "10" false 10 0) by reflexivity. f_equal. simpl. lra. Qed.

Lemma parseDecimal_1000 : parseDecimal "1000" = Some 1000.
Proof. rewrite (parseDecimal_scan "1000" false 1000 0) by reflexivity. f_equal. simpl. lra. Qed.

Lemma parseDecimal_not_a_number : parseDecimal "n/a" = None.
Proof. reflexivity. Qed.

Lemma unpriced_lookup :
  unpriced_data !! toLowerCase (address unpriced_token)
  = Some {| price := Some 0; volatility24h := Some 2 |}.
Proof. apply (lookup_singleton_eq (M := gmap string)). Qed.

Lemma perfect_lookup :
  perfect_data !! toLowerCase (address perfect_token)
  = Some {| price := Some 1; volatility24h := Some 0 |}.
Proof. apply (lookup_singleton_eq (M := gmap string)). Qed.

Lemma perfect_slippage_lookup :
  perfect_slippage !! toLowerCase (address perfect_token)
  = Some {| slippage := Some 0; estimatedFee := Some 0 |}.
Proof. apply (lookup_singleton_eq (M := gmap string)). Qed.

Lemma volatile_lookup :
  volatile_data !! toLowerCase (address volatile_token)
  = Some {| price := Some 2; volatility24h := Some 150 |}.
Proof. apply (lookup_singleton_eq (M := gmap string)). Qed.

Lemma volatile_slippage_lookup :
  volatile_slippage !! toLowerCase (address volatile_token)
  = Some {| slippage := Some 20; estimatedFee := Some 10 |}.
Proof. apply (lookup_singleton_eq (M := gmap string)). Qed.

(** C1, on the code: 10 units of a token priced at 0 have a USD balance of
    0, so the first guard answers and the reason is "Zero balance"; the
    "No price data available" branch is not reached. *)
Theorem unpriced_token_reports_zero_balance :
  tokenBalance parseDecimal unpriced_token = 10
  ∧ tokenPrice unpriced_data unpriced_token = 0
  ∧ scoreTokens parseDecimal toFixedDecimal (Some [unpriced_token])
      (Some unpriced_data) (Some unpriced_slippage)
    = Return (Some {| recommendedToken := Some (zero_balance_result unpriced_token);
                      allScores := [zero_balance_result unpriced_token] |})
  ∧ reasons (zero_balance_result unpriced_token) = ["Zero balance"]
  ∧ zero_balance_result unpriced_token ≠ no_price_result unpriced_token.
Proof.
  assert (Hprice : tokenPrice unpriced_data unpriced_token = 0).
  { unfold tokenPrice. rewrite unpriced_lookup. apply js_or_zero. }
  split; [|split; [assumption|split; [|split; [reflexivity | discriminate]]]].
  - unfold tokenBalance. simpl balance. rewrite parseDecimal_10.
    apply js_or_nonzero. lra.
  - rewrite scoreTokens_nonempty by discriminate. simpl.
    rewrite zero_price_is_zero_balance by assumption. reflexivity.
Qed.

(** C2, on the code: the weights add up to 1, but the "perfect" asset (1000
    USD, so a balance score of 1, volatility 0 and slippage 0) is scored 0.4:
    the two zeros are replaced by the fallbacks 100 and 10. *)
Theorem perfect_asset_scores_two_fifths :
  weights.balance + weights.volatility + weights.slippage = 1
  ∧ _normalizeBalance 1000 = 1
  ∧ ∃ st,
      scoreTokens parseDecimal toFixedDecimal (Some [perfect_token])
        (Some perfect_data) (Some perfect_slippage)
      = Return (Some {| recommendedToken := Some st; allScores := [st] |})
      ∧ usdBalance st = Some 1000
      ∧ volatilityScore st = Some 0
      ∧ slippageScore st = Some 0
      ∧ score st = 0.4
      ∧ score st ≠ 1.
Proof.
  pose proof exp_five as H5.
  split; [unfold weights.balance, weights.volatility, weights.slippage; lra|].
  split; [apply normalizeBalance_max; lra|].
  assert (Hbal : tokenBalance parseDecimal perfect_token = 1000).
  { unfold tokenBalance. simpl balance. rewrite parseDecimal_1000.
    apply js_or_nonzero. lra. }
  assert (Hprice : tokenPrice perfect_data perfect_token = 1).
  { unfold tokenPrice. rewrite perfect_lookup. apply js_or_nonzero. lra. }
  exists (scoreToken parseDecimal toFixedDecimal perfect_data perfect_slippage
            perfect_token).
  split; [rewrite scoreTokens_nonempty by discriminate; reflexivity|].
  destruct (perfect_asset_score parseDecimal toFixedDecimal perfect_data
              perfect_slippage perfect_token) as (Hv & Hs & Hscore).
  - rewrite Hbal, Hprice. lra.
  - rewrite Hprice. lra.
  - rewrite perfect_lookup. reflexivity.
  - rewrite perfect_slippage_lookup. reflexivity.
  - repeat split; try assumption; [|rewrite Hscore; lra].
    rewrite scoreToken_scored by (rewrite ?Hbal, ?Hprice; lra).
    simpl. rewrite Hbal, Hprice. f_equal. lra.
Qed.

Lemma scoreTokens_sorted_descending_witness :
  [unpriced_token; perfect_token] ≠ []
  ∧ ∃ top rest,
      scoreTokens parseDecimal toFixedDecimal (Some [unpriced_token; perfect_token])
        (Some perfect_data) (Some perfect_slippage)
      = Return (Some {| recommendedToken := Some top; allScores := top :: rest |})
      ∧ Sorted (λ a b, score a >= score b) (top :: rest)
      ∧ top :: rest
        ≡ₚ scoreToken parseDecimal toFixedDecimal perfect_data perfect_slippage
           <$> [unpriced_token; perfect_token]
      ∧ ∀ t, t ∈ top :: rest → score t <= score top.
Proof.
  split; [discriminate|].
  apply (scoreTokens_sorted_descending parseDecimal toFixedDecimal
           [unpriced_token; perfect_token] perfect_data perfect_slippage).
  discriminate.
Defined.

Lemma unparsable_balance_scores_zero_witness :
  unparsable_token ∈ [unpriced_token; unparsable_token]
  ∧ parseDecimal (balance unparsable_token) = None
  ∧ tokenBalance parseDecimal unparsable_token = 0
  ∧ scoreToken parseDecimal toFixedDecimal unpriced_data unpriced_slippage
      unparsable_token
    = zero_balance_result unparsable_token
  ∧ ∃ rec,
      scoreTokens parseDecimal toFixedDecimal
        (Some [unpriced_token; unparsable_token])
        (Some unpriced_data) (Some unpriced_slippage)
      = Return (Some rec)
      ∧ zero_balance_result unparsable_token ∈ allScores rec.
Proof.
  assert (Hin : unparsable_token ∈ [unpriced_token; unparsable_token]).
  { apply elem_of_cons. right. apply elem_of_cons. left. reflexivity. }
  split; [exact Hin|]. split; [reflexivity|].
  apply (unparsable_balance_scores_zero parseDecimal toFixedDecimal
           [unpriced_token; unparsable_token] unpriced_data unpriced_slippage
           unparsable_token Hin).
  reflexivity.
Defined.

Lemma subscores_not_clamped_witness :
  let st := scoreToken parseDecimal toFixedDecimal volatile_data volatile_slippage
              volatile_token in
  parseDecimal (balance volatile_token) = Some 10
  ∧ volatile_data !! toLowerCase (address volatile_token) ≫= price = Some 2
  ∧ volatile_data !! toLowerCase (address volatile_token) ≫= volatility24h = Some 150
  ∧ volatile_slippage !! toLowerCase (address volatile_token) ≫= slippage = Some 20
  ∧ volatilityScore st = Some (-0.5)
  ∧ slippageScore st = Some (1 - 20 / 10)
  ∧ score st = 0.4 * _normalizeBalance (10 * 2) + 0.3 * (1 - 150 / 100)
               + 0.3 * (1 - 20 / 10)
  ∧ score st < 0.4 * _normalizeBalance (10 * 2).
Proof.
  intros st.
  assert (Hp : volatile_data !! toLowerCase (address volatile_token) ≫= price = Some 2)
    by (rewrite volatile_lookup; reflexivity).
  assert (Hv : volatile_data !! toLowerCase (address volatile_token) ≫= volatility24h
               = Some 150)
    by (rewrite volatile_lookup; reflexivity).
  assert (Hs : volatile_slippage !! toLowerCase (address volatile_token) ≫= slippage
               = Some 20)
    by (rewrite volatile_slippage_lookup; reflexivity).
  destruct (subscores_not_clamped parseDecimal toFixedDecimal volatile_data
              volatile_slippage volatile_token 10 2 parseDecimal_10)
    as [Hvol Hslip]; [lra | exact Hp | lra |].
  destruct (Hvol 150 Hv) as (_ & _ & Hhalf & _ & _); [lra|].
  destruct (Hslip 20 Hs) as (Hss & _ & Hscore & Hlow); [lra|].
  assert (Hvolatility : tokenVolatility volatile_data volatile_token = 150).
  { unfold tokenVolatility. rewrite Hv. apply js_or_nonzero. lra. }
  rewrite Hvolatility in Hscore, Hlow.
  split_and!; try assumption.
  - apply parseDecimal_10.
  - apply Hhalf. reflexivity.
  - fold st in Hlow. lra.
Defined.

(** The scorer on 1000 DAI: every field of the scored token. *)
Lemma toFixedDecimal_nonneg (x : R) (f : nat) (n : Z) :
  0 <= x → IZR n <= x * 10 ^ f + / 2 < IZR n + 1 →
  toFixedDecimal x f
  = let m := pretty n in
    let m := pad_zeros (S f - String.length m) m in
    let k := (String.length m - f)%nat in
    if decide (f = 0%nat) then m else substring 0 k m +:+ "." +:+ substring k f m.
Proof.
  intros Hx Hn. unfold toFixedDecimal.
  rewrite Rabs_pos_eq by assumption.
  rewrite (Zfloor_eq n) by assumption.
  rewrite (decide_False (P := x < 0)) by lra. reflexivity.
Qed.

Lemma toFixedDecimal_1000 : toFixedDecimal 1000 2 = "1000.00"%string.
Proof. rewrite (toFixedDecimal_nonneg 1000 2 100000) by (simpl; lra). reflexivity. Qed.

Lemma toFixedDecimal_volatility : toFixedDecimal 0.2 2 = "0.20"%string.
Proof. rewrite (toFixedDecimal_nonneg 0.2 2 20) by (simpl; lra). reflexivity. Qed.

Lemma toFixedDecimal_slippage : toFixedDecimal 0.1 2 = "0.10"%string.
Proof. rewrite (toFixedDecimal_nonneg 0.1 2 10) by (simpl; lra). reflexivity. Qed.

Example dai_scored :
  scoreToken parseDecimal toFixedDecimal dai_data dai_slippage dai_token
  = {| token := dai_token; usdBalance := Some 1000;
       volatilityScore := Some 0.998; slippageScore := Some 0.99;
       score := 0.9964;
       reasons := ["High balance ($1000.00) provides flexibility";
                   "Very stable price (0.20% 24h change)";
                   "Minimal slippage (0.10%)"]%string |}.
Proof.
  assert (Hbal : tokenBalance parseDecimal dai_token = 1000).
  { unfold tokenBalance. simpl balance. rewrite parseDecimal_1000.
    apply js_or_nonzero. lra. }
  assert (Hlookup : dai_data !! toLowerCase (address dai_token)
                    = Some {| price := Some 1.0; volatility24h := Some 0.2 |})
    by apply (lookup_singleton_eq (M := gmap string)).
  assert (Hslookup : dai_slippage !! toLowerCase (address dai_token)
                     = Some {| slippage := Some 0.1; estimatedFee := Some 0.05 |})
    by apply (lookup_singleton_eq (M := gmap string)).
  assert (Hprice : tokenPrice dai_data dai_token = 1).
  { unfold tokenPrice. rewrite Hlookup.
    transitivity 1.0; [apply js_or_nonzero; lra | lra]. }
  assert (Hvol : tokenVolatility dai_data dai_token = 0.2).
  { unfold tokenVolatility. rewrite Hlookup. apply js_or_nonzero. lra. }
  assert (Hslip : tokenSlippage dai_slippage dai_token = 0.1).
  { unfold tokenSlippage. rewrite Hslookup. apply js_or_nonzero. lra. }
  rewrite scoreToken_scored by (rewrite ?Hbal, ?Hprice; lra).
  rewrite Hbal, Hprice, Hvol, Hslip.
  replace (1000 * 1) with 1000 by lra.
  pose proof exp_five.
  rewrite normalizeBalance_max by lra.
  unfold _generateReasons.
  rewrite (decide_True (P := 1000 >= 100)) by lra.
  rewrite (decide_True (P := 0.2 < 1)) by lra.
  rewrite (decide_True (P := 0.1 < 0.5)) by lra.
  rewrite toFixedDecimal_1000, toFixedDecimal_volatility, toFixedDecimal_slippage.
  f_equal; try (f_equal; lra); lra.
Qed.

(** ** The price cache *)

Lemma append_length (a s : string) :
  String.length (a +:+ s) = (String.length a + String.length s)%nat.
Proof. induction a as [|c a IH]; simpl; [reflexivity | rewrite IH; reflexivity]. Qed.

Lemma append_inj_r (a b s : string) : a +:+ s = b +:+ s → a = b.
Proof.
  revert b. induction a as [|c a IH]; intros [|c' b] Heq.
  - reflexivity.
  - apply (f_equal String.length) in Heq.
    rewrite !append_length in Heq. simpl in Heq. exfalso. lia.
  - apply (f_equal String.length) in Heq.
    rewrite !append_length in Heq. simpl in Heq. exfalso. lia.
  - injection Heq as -> Heq. f_equal. apply IH. assumption.
Qed.

(** Running the primitive operations. *)
Lemma run_bind {A B : Type} (m : M A) (f : A → M B) (σ : ServiceState) :
  (m ≫= f) σ
  = match m σ with
    | (Return a, σ') => f a σ'
    | (Throw e, σ') => (Throw e, σ')
    end.
Proof. reflexivity. Qed.

Lemma run_ret {A : Type} (a : A) (σ : ServiceState) :
  (mret a : M A) σ = (Return a, σ).
Proof. reflexivity. Qed.

(** [mockPrice] returns a provider price and at most advances the random
    source. *)
Lemma mockPrice_run (address : string) (σ : ServiceState) :
  ∃ p n, mockPrice address σ = (Return p, with_random_next n σ)
         ∧ providerPrice (random σ) address p.
Proof.
  unfold mockPrice, providerPrice.
  destruct (truthy (mockPrices !! address)) eqn:Hmock.
  - apply truthy_true in Hmock as (p & Hp & Hnz).
    exists p, (random_next σ). rewrite Hp. split; [|left; auto].
    rewrite run_ret. destruct σ; reflexivity.
  - eexists _, _. split; [reflexivity|]. right. split; [reflexivity|]. eauto.
Qed.

Lemma Date_now_run (σ : ServiceState) :
  Date_now σ = (Return (clock σ (clock_next σ)), with_clock_next (S (clock_next σ)) σ).
Proof. reflexivity. Qed.

Lemma priceFresh_true (t : R) (σ : ServiceState) (address : string) (p T : R) :
  priceCache σ !! address = Some p → p ≠ 0 →
  priceCache σ !! (address +:+ "_time") = Some T → T ≠ 0 →
  t - T <= cacheTTL σ →
  priceFresh t σ address = true.
Proof.
  intros Hp Hpnz HT HTnz Hage. unfold priceFresh. rewrite Hp, HT. simpl.
  rewrite (bool_decide_eq_true_2 (p ≠ 0) Hpnz).
  rewrite (bool_decide_eq_true_2 (T ≠ 0) HTnz).
  rewrite (bool_decide_eq_true_2 (t - T <= cacheTTL σ) Hage). reflexivity.
Qed.

Lemma priceFresh_expired (t : R) (σ : ServiceState) (address : string) (T : R) :
  priceCache σ !! (address +:+ "_time") = Some T →
  t - T > cacheTTL σ →
  priceFresh t σ address = false.
Proof.
  intros HT Hage. unfold priceFresh. rewrite HT. simpl.
  rewrite (bool_decide_eq_false_2 (t - T <= cacheTTL σ)) by lra.
  rewrite andb_false_r. reflexivity.
Qed.

Lemma priceFresh_ext (t : R) (σ σ' : ServiceState) (address : string) :
  priceCache σ' !! address = priceCache σ !! address →
  priceCache σ' !! (address +:+ "_time") = priceCache σ !! (address +:+ "_time") →
  cacheTTL σ' = cacheTTL σ →
  priceFresh t σ' address = priceFresh t σ address.
Proof. intros Hp HT Httl. unfold priceFresh. rewrite Hp, HT, Httl. reflexivity. Qed.

(** The filter and the loop of [_fetchPriceData] agree: at a given reading
    of the clock an address needs fresh data exactly when it is not served
    from the cache.  The callback of the filter only moves the clock on. *)
Lemma priceNeedsFetch_run (address : string) (σ : ServiceState) :
  ∃ n, priceNeedsFetch address σ
       = (Return (negb (priceFresh (clock σ (clock_next σ)) σ address)),
          with_clock_next n σ).
Proof.
  unfold priceNeedsFetch, priceFresh, priceCache_get, gets.
  rewrite !run_bind.
  destruct (truthy (priceCache σ !! address)); simpl;
    [|exists (clock_next σ); destruct σ; reflexivity].
  destruct (priceCache σ !! (address +:+ "_time")) as [t|] eqn:Ht; simpl;
    [|exists (clock_next σ); destruct σ; reflexivity].
  destruct (bool_decide (t ≠ 0)); simpl;
    [|exists (clock_next σ); destruct σ; reflexivity].
  exists (S (clock_next σ)). rewrite run_bind, Date_now_run, run_bind. simpl.
  rewrite run_ret. f_equal. f_equal.
  set (c := clock σ (clock_next σ)).
  destruct (decide (c - t <= cacheTTL σ)) as [Hle|Hgt].
  - rewrite (bool_decide_eq_true_2 (c - t <= cacheTTL σ)) by assumption.
    rewrite (bool_decide_eq_false_2 (c - t > cacheTTL σ)) by lra. reflexivity.
  - rewrite (bool_decide_eq_false_2 (c - t <= cacheTTL σ)) by assumption.
    rewrite (bool_decide_eq_true_2 (c - t > cacheTTL σ)) by lra. reflexivity.
Qed.

(** The filter keeps every address that is stale at every reading of the
    clock, and changes nothing but the position of the clock. *)
Lemma filter_priceNeedsFetch_run (l : list string) :
  ∀ σ : ServiceState,
    ∃ kept n,
      filterM priceNeedsFetch l σ = (Return kept, with_clock_next n σ)
      ∧ ∀ a, a ∈ l → (∀ n, priceFresh (clock σ n) σ a = false) → a ∈ kept.
Proof.
  induction l as [|b l IH]; intros σ.
  - exists [], (clock_next σ). split; [destruct σ; reflexivity|].
    intros a Hin. inversion Hin.
  - simpl. rewrite run_bind.
    destruct (priceNeedsFetch_run b σ) as (n1 & Hb). rewrite Hb.
    rewrite run_bind.
    destruct (IH (with_clock_next n1 σ)) as (kept & n & Hrun & Hkept).
    rewrite Hrun, run_ret.
    eexists _, n. split; [reflexivity|].
    intros a Hin Hstale. apply elem_of_cons in Hin as [->|Hin].
    + rewrite Hstale. simpl. apply elem_of_cons. left. reflexivity.
    + specialize (Hkept a Hin Hstale).
      destruct (negb (priceFresh (clock σ (clock_next σ)) σ b));
        [apply elem_of_cons; right|]; assumption.
Qed.

Lemma priceStep_cached (result : gmap string R) (address : string) (σ : ServiceState) :
  priceFresh (clock σ (clock_next σ)) σ address = true →
  priceStep result address σ
  = (Return (<[address := default 0 (priceCache σ !! address)]> result),
     with_clock_next (S (clock_next σ)) σ).
Proof.
  intros Hfresh. unfold priceFresh in Hfresh.
  apply andb_true_iff in Hfresh as [Htruthy Hwithin].
  unfold priceStep, priceCache_get, gets.
  rewrite !run_bind. simpl. rewrite Htruthy.
  rewrite run_bind, Date_now_run, run_bind. simpl.
  rewrite Hwithin. reflexivity.
Qed.

Lemma priceStep_fetch (result : gmap string R) (address : string) (σ : ServiceState) :
  priceFresh (clock σ (clock_next σ)) σ address = false →
  ∃ p n k m,
    providerPrice (random σ) address p
    ∧ priceStep result address σ
      = (Return (<[address := p]> result),
         with_priceCache
           (<[address +:+ "_time" := clock σ k]> (<[address := p]> (priceCache σ)))
           (with_random_next n (with_clock_next m σ))).
Proof.
  intros Hfresh. unfold priceFresh in Hfresh.
  unfold priceStep, priceCache_get, gets.
  rewrite !run_bind. simpl.
  destruct (truthy (priceCache σ !! address)
            && truthy (priceCache σ !! (address +:+ "_time"))) eqn:Htruthy.
  - simpl in Hfresh.
    rewrite run_bind, Date_now_run, run_bind. simpl. rewrite Hfresh.
    destruct (mockPrice_run address (with_clock_next (S (clock_next σ)) σ))
      as (p & n & Hrun & Hprov).
    exists p, n, (S (clock_next σ)), (S (S (clock_next σ))).
    split; [exact Hprov|].
    rewrite run_bind, Hrun. reflexivity.
  - rewrite run_ret.
    destruct (mockPrice_run address σ) as (p & n & Hrun & Hprov).
    exists p, n, (clock_next σ), (S (clock_next σ)).
    split; [exact Hprov|].
    rewrite run_bind, Hrun. reflexivity.
Qed.

(** One step of the loop: it returns, writes [result[address]], and touches
    no cache key but the two of its address. *)
Lemma priceStep_run (result : gmap string R) (address : string) (σ : ServiceState) :
  ∃ v σ',
    priceStep result address σ = (Return (<[address := v]> result), σ')
    ∧ clock σ' = clock σ ∧ cacheTTL σ' = cacheTTL σ ∧ random σ' = random σ
    ∧ volatilityCache σ' = volatilityCache σ
    ∧ ∀ key, key ≠ address → key ≠ address +:+ "_time" →
             priceCache σ' !! key = priceCache σ !! key.
Proof.
  destruct (priceFresh (clock σ (clock_next σ)) σ address) eqn:Hfresh.
  - eexists _, _. rewrite priceStep_cached by assumption.
    split_and!; reflexivity.
  - destruct (priceStep_fetch result address σ Hfresh) as (p & n & k & m & _ & Hrun).
    eexists _, _. split; [exact Hrun|]. simpl. split_and!; try reflexivity.
    intros key Hk Hkt. rewrite !lookup_insert_ne by congruence. reflexivity.
Qed.

Lemma keys_apart_cons (a b : string) (l : list string) :
  keys_apart a (b :: l) → keys_apart a l ∧ b ≠ a +:+ "_time" ∧ b +:+ "_time" ≠ a.
Proof.
  intros H. split.
  - intros c Hc. apply H. apply elem_of_cons. right. assumption.
  - apply H. apply elem_of_cons. left. reflexivity.
Qed.

Lemma time_key_ne (a : string) : a ≠ a +:+ "_time".
Proof.
  intros Heq. apply (f_equal String.length) in Heq.
  rewrite append_length in Heq. simpl in Heq. lia.
Qed.

Lemma has_underscore_time_key (a : string) : has_underscore (a +:+ "_time") = true.
Proof.
  induction a as [|c a IH]; [reflexivity|].
  change (String c a +:+ "_time") with (String c (a +:+ "_time")).
  simpl. rewrite IH. apply orb_true_r.
Qed.

(** Addresses without an underscore never collide with a time key. *)
Lemma keys_apart_addresses (a : string) (l : list string) :
  has_underscore a = false →
  (∀ b, b ∈ l → has_underscore b = false) →
  keys_apart a l.
Proof.
  intros Ha Hl b Hb. split; intros Heq.
  - specialize (Hl b Hb). rewrite Heq, has_underscore_time_key in Hl. discriminate.
  - rewrite <- Heq, has_underscore_time_key in Ha. discriminate.
Qed.

(** An entry that is fresh at every reading of the clock stays untouched
    through the loop, and the result carries its price. *)
Lemma forEach_priceStep_served (a : string) (p T : R) (l : list string) :
  ∀ (result : gmap string R) (σ : ServiceState),
    keys_apart a l →
    priceCache σ !! a = Some p → p ≠ 0 →
    priceCache σ !! (a +:+ "_time") = Some T → T ≠ 0 →
    (∀ n, clock σ n - T <= cacheTTL σ) →
    ∃ result' σ',
      forEach priceStep result l σ = (Return result', σ')
      ∧ priceCache σ' !! a = Some p
      ∧ priceCache σ' !! (a +:+ "_time") = Some T
      ∧ result' !! a = (if decide (a ∈ l) then Some p else result !! a).
Proof.
  induction l as [|b l IH]; intros result σ Hkeys Hp Hpnz HT HTnz Hage.
  - exists result, σ. simpl. rewrite run_ret. split_and!; try assumption; reflexivity.
  - apply keys_apart_cons in Hkeys as (Hkeys & Hb1 & Hb2).
    simpl. rewrite run_bind.
    destruct (decide (b = a)) as [->|Hne].
    + rewrite priceStep_cached by (eapply priceFresh_true; eauto).
      rewrite Hp. simpl.
      destruct (IH (<[a := p]> result) (with_clock_next (S (clock_next σ)) σ))
        as (result' & σ' & Hrun & Hp' & HT' & Hres); try assumption.
      exists result', σ'. split_and!; try assumption.
      rewrite Hres. rewrite (decide_True (P := a ∈ a :: l)) by (apply elem_of_cons; auto).
      case_decide; [reflexivity | apply lookup_insert_eq].
    + destruct (priceStep_run result b σ)
        as (v & σ1 & Hstep & Hclock & Httl & _ & _ & Hframe).
      rewrite Hstep.
      destruct (IH (<[b := v]> result) σ1) as (result' & σ' & Hrun & Hp' & HT' & Hres);
        try assumption.
      * rewrite Hframe by congruence. assumption.
      * rewrite Hframe; [assumption | congruence |].
        intros Heq. apply append_inj_r in Heq. congruence.
      * rewrite Hclock, Httl. assumption.
      * exists result', σ'. split_and!; try assumption.
        rewrite Hres. rewrite lookup_insert_ne by assumption.
        destruct (decide (a ∈ l)) as [Hin|Hnin].
        -- rewrite decide_True by (apply elem_of_cons; auto). reflexivity.
        -- rewrite decide_False; [reflexivity|].
           intros Hin. apply elem_of_cons in Hin as [Heq|Hin]; congruence.
Qed.

(** Once an address has been fetched, the rest of the loop keeps a fetched
    entry for it: served from the cache, or fetched once more. *)
Lemma forEach_priceStep_refetched (a : string) (rnd clk : nat → R) (l : list string) :
  ∀ (result : gmap string R) (σ : ServiceState),
    keys_apart a l →
    clock σ = clk → random σ = rnd →
    (∃ k, refetched a rnd (clk k) σ result) →
    ∃ result' σ',
      forEach priceStep result l σ = (Return result', σ')
      ∧ ∃ k, refetched a rnd (clk k) σ' result'.
Proof.
  induction l as [|b l IH]; intros result σ Hkeys Hclk Hrnd Hinv.
  - exists result, σ. split; [reflexivity | assumption].
  - apply keys_apart_cons in Hkeys as (Hkeys & Hb1 & Hb2).
    simpl. rewrite run_bind.
    destruct (priceStep_run result b σ)
      as (v & σ1 & Hstep & Hclock1 & Httl1 & Hrnd1 & _ & Hframe).
    rewrite Hstep. apply IH; try assumption; try congruence.
    destruct (decide (b = a)) as [->|Hne].
    + clear Hframe. destruct (priceFresh (clock σ (clock_next σ)) σ a) eqn:Hfresh.
      * rewrite priceStep_cached in Hstep by assumption.
        injection Hstep as Hres <-.
        destruct Hinv as (k & p & Hprov & Hp & HT & _).
        exists k, p. split_and!; try assumption.
        rewrite <- Hres, Hp. apply lookup_insert_eq.
      * destruct (priceStep_fetch result a σ Hfresh) as (p & n & k & m & Hprov & Hrun).
        rewrite Hrun in Hstep. injection Hstep as Hres <-.
        exists k, p. simpl. split_and!.
        -- rewrite <- Hrnd. assumption.
        -- rewrite lookup_insert_ne by (symmetry; apply time_key_ne).
           apply lookup_insert_eq.
        -- rewrite lookup_insert_eq, Hclk. reflexivity.
        -- rewrite <- Hres. apply lookup_insert_eq.
    + destruct Hinv as (k & p & Hprov & Hp & HT & Hres).
      exists k, p. split_and!; try assumption.
      * rewrite Hframe by congruence. assumption.
      * rewrite Hframe; [assumption | congruence |].
        intros Heq. apply append_inj_r in Heq. congruence.
      * rewrite lookup_insert_ne by assumption. assumption.
Qed.

(** An entry that is stale at every reading of the clock is fetched when
    the loop reaches it. *)
Lemma forEach_priceStep_stale (a : string) (l : list string) :
  ∀ (result : gmap string R) (σ : ServiceState),
    a ∈ l → keys_apart a l →
    (∀ n, priceFresh (clock σ n) σ a = false) →
    ∃ result' σ',
      forEach priceStep result l σ = (Return result', σ')
      ∧ ∃ k, refetched a (random σ) (clock σ k) σ' result'.
Proof.
  induction l as [|b l IH]; intros result σ Hin Hkeys Hstale.
  - inversion Hin.
  - pose proof Hkeys as Hkeys0.
    apply keys_apart_cons in Hkeys as (Hkeys & Hb1 & Hb2).
    simpl. rewrite run_bind.
    destruct (decide (b = a)) as [->|Hne].
    + destruct (priceStep_fetch result a σ (Hstale _))
        as (p & n & k & m & Hprov & Hrun).
      rewrite Hrun.
      apply forEach_priceStep_refetched; try assumption; try reflexivity.
      exists k, p. simpl. split_and!; try assumption.
      * rewrite lookup_insert_ne by (symmetry; apply time_key_ne).
        apply lookup_insert_eq.
      * apply lookup_insert_eq.
      * apply lookup_insert_eq.
    + destruct (priceStep_run result b σ)
        as (v & σ1 & Hstep & Hclock1 & Httl1 & Hrnd1 & _ & Hframe).
      rewrite Hstep. rewrite <- Hclock1, <- Hrnd1.
      apply IH; try assumption.
      * apply elem_of_cons in Hin as [Heq|Hin]; [congruence | assumption].
      * intros i. rewrite Hclock1, <- (Hstale i). apply priceFresh_ext; try assumption.
        -- apply Hframe; congruence.
        -- apply Hframe; [congruence|].
           intros Heq. apply append_inj_r in Heq. congruence.
Qed.

(** The first branch of [_fetchPriceData]: every address is read from the
    cache and the state is left alone. *)
Lemma forEach_cached_prices (a : string) (l : list string) :
  ∀ (result : gmap string R) (σ : ServiceState),
    ∃ result',
      forEach (λ result address,
          cached ← priceCache_get address;
          mret (<[address := js_or cached 0]> result)) result l σ
      = (Return result', σ)
      ∧ result' !! a
        = (if decide (a ∈ l) then Some (js_or (priceCache σ !! a) 0) else result !! a).
Proof.
  induction l as [|b l IH]; intros result σ.
  - exists result. split; reflexivity.
  - simpl. rewrite run_bind. unfold priceCache_get at 1, gets. rewrite run_bind.
    rewrite run_ret.
    destruct (IH (<[b := js_or (priceCache σ !! b) 0]> result) σ) as (result' & Hrun & Hres).
    exists result'. split; [exact Hrun|]. rewrite Hres.
    destruct (decide (b = a)) as [->|Hne].
    + rewrite (decide_True (P := a ∈ a :: l)) by (apply elem_of_cons; auto).
      case_decide; [reflexivity | apply lookup_insert_eq].
    + rewrite lookup_insert_ne by assumption.
      destruct (decide (a ∈ l)) as [Hin|Hnin].
      * rewrite decide_True by (apply elem_of_cons; auto). reflexivity.
      * rewrite decide_False; [reflexivity|].
        intros Hin. apply elem_of_cons in Hin as [Heq|Hin]; congruence.
Qed.

(** [_fetchPriceData] after its filter. *)
Lemma fetchPriceData_unfold (addresses : list string) (σ : ServiceState) :
  ∃ kept n,
    filterM priceNeedsFetch addresses σ = (Return kept, with_clock_next n σ)
    ∧ (∀ a, a ∈ addresses → (∀ n, priceFresh (clock σ n) σ a = false) → a ∈ kept)
    ∧ _fetchPriceData addresses σ
      = if decide (length kept = 0%nat)
        then forEach (λ result address,
                 cached ← priceCache_get address;
                 mret (<[address := js_or cached 0]> result)) ∅ addresses
               (with_clock_next n σ)
        else forEach priceStep ∅ addresses (with_clock_next n σ).
Proof.
  destruct (filter_priceNeedsFetch_run addresses σ) as (kept & n & Hrun & Hkept).
  exists kept, n. split_and!; try assumption.
  unfold _fetchPriceData. rewrite run_bind, Hrun.
  case_decide; reflexivity.
Qed.

(** What the service stores is truthy: the mock prices are positive, and so
    is a random price when [Math.random] is not negative. *)
Lemma mockPrices_pos (address : string) (p : R) :
  mockPrices !! address = Some p → 0 < p.
Proof.
  intros Hp. apply elem_of_list_to_map_2 in Hp.
  repeat (apply elem_of_cons in Hp as [[= _ ->]|Hp]; [lra|]).
  inversion Hp.
Qed.

Lemma providerPrice_pos (rnd : nat → R) (address : string) (p : R) :
  (∀ k, 0 <= rnd k) → providerPrice rnd address p → 0 < p.
Proof.
  intros Hrnd [[_ Hp]|[_ [k ->]]].
  - eapply mockPrices_pos; eassumption.
  - specialize (Hrnd k). lra.
Qed.

(** After a fetch the entry is a truthy price with its time stamp. *)
Lemma refetched_entry_stored (a : string) (rnd : nat → R) (T : R)
    (σ : ServiceState) (result : gmap string R) :
  (∀ k, 0 <= rnd k) →
  refetched a rnd T σ result →
  ∃ p, priceCache σ !! a = Some p ∧ p ≠ 0
       ∧ priceCache σ !! (a +:+ "_time") = Some T
       ∧ result !! a = Some p.
Proof.
  intros Hrnd (p & Hprov & Hp & HT & Hres).
  exists p. split_and!; try assumption.
  pose proof (providerPrice_pos rnd a p Hrnd Hprov). lra.
Qed.

Lemma fetchPriceData_served (σ : ServiceState) (addresses : list string)
    (a : string) (p T : R) :
  a ∈ addresses → keys_apart a addresses →
  priceCache σ !! a = Some p → p ≠ 0 →
  priceCache σ !! (a +:+ "_time") = Some T → T ≠ 0 →
  (∀ n, clock σ n - T <= cacheTTL σ) →
  ∃ result σ',
    _fetchPriceData addresses σ = (Return result, σ')
    ∧ result !! a = Some p
    ∧ priceCache σ' !! a = Some p
    ∧ priceCache σ' !! (a +:+ "_time") = Some T.
Proof.
  intros Hin Hkeys Hp Hpnz HT HTnz Hage.
  destruct (fetchPriceData_unfold addresses σ) as (kept & n & _ & _ & ->).
  case_decide as Hnone.
  - destruct (forEach_cached_prices a addresses ∅ (with_clock_next n σ))
      as (result & Hrun & Hres).
    exists result, (with_clock_next n σ). split_and!; try assumption.
    rewrite Hres, decide_True by assumption. simpl.
    rewrite Hp, js_or_nonzero by assumption. reflexivity.
  - destruct (forEach_priceStep_served a p T addresses ∅ (with_clock_next n σ))
      as (result & σ' & Hrun & Hp' & HT' & Hres); try assumption.
    exists result, σ'. split_and!; try assumption.
    rewrite Hres, decide_True by assumption. reflexivity.
Qed.

Lemma fetchPriceData_stale (σ : ServiceState) (addresses : list string) (a : string) :
  a ∈ addresses → keys_apart a addresses →
  (∀ n, priceFresh (clock σ n) σ a = false) →
  ∃ result σ',
    _fetchPriceData addresses σ = (Return result, σ')
    ∧ ∃ k, refetched a (random σ) (clock σ k) σ' result.
Proof.
  intros Hin Hkeys Hstale.
  destruct (fetchPriceData_unfold addresses σ) as (kept & n & _ & Hkept & ->).
  rewrite decide_False.
  - apply (forEach_priceStep_stale a addresses ∅ (with_clock_next n σ));
      assumption.
  - intros Hlen. apply length_zero_iff_nil in Hlen.
    specialize (Hkept a Hin Hstale). rewrite Hlen in Hkept. inversion Hkept.
Qed.

Lemma fetchPriceData_refetched (σ : ServiceState) (addresses : list string)
    (a : string) (T : R) :
  a ∈ addresses → keys_apart a addresses →
  priceCache σ !! (a +:+ "_time") = Some T →
  (∀ n, clock σ n - T > cacheTTL σ) →
  ∃ result σ',
    _fetchPriceData addresses σ = (Return result, σ')
    ∧ ∃ k, refetched a (random σ) (clock σ k) σ' result.
Proof.
  intros Hin Hkeys HT Hage.
  apply fetchPriceData_stale; try assumption.
  intros n. eapply priceFresh_expired; eauto.
Qed.

(** C5: an entry stored at time [T] is served from the cache, and left as
    it is, by any request at [T + Δ] with [Δ] below the TTL; a request at
    [T + TTL + 1] fetches the address again: the cache then holds a provider
    price stamped [T + TTL + 1], which is the price returned. *)
Theorem price_cache_freshness (σ : ServiceState) (addresses : list string)
    (a : string) (p T Δ : R) :
  a ∈ addresses → keys_apart a addresses →
  priceCache σ !! a = Some p → p ≠ 0 →
  priceCache σ !! (a +:+ "_time") = Some T → T ≠ 0 →
  (∀ n, clock σ n = T + Δ) →
  (Δ < cacheTTL σ →
   ∃ result σ',
     _fetchPriceData addresses σ = (Return result, σ')
     ∧ result !! a = Some p
     ∧ priceCache σ' !! a = Some p
     ∧ priceCache σ' !! (a +:+ "_time") = Some T)
  ∧ (Δ = cacheTTL σ + 1 →
     ∃ result σ',
       _fetchPriceData addresses σ = (Return result, σ')
       ∧ refetched a (random σ) (T + cacheTTL σ + 1) σ' result).
Proof.
  intros Hin Hkeys Hp Hpnz HT HTnz Hclock. split.
  - intros HΔ. apply fetchPriceData_served; try assumption.
    intros n. rewrite Hclock. lra.
  - intros HΔ.
    destruct (fetchPriceData_refetched σ addresses a T)
      as (result & σ' & Hrun & k & Hfetched); try assumption.
    { intros n. rewrite Hclock. lra. }
    exists result, σ'. split; [exact Hrun|].
    rewrite Hclock in Hfetched. replace (T + cacheTTL σ + 1) with (T + Δ) by lra.
    assumption.
Qed.

(** A request changes neither the clock's readings nor the TTL. *)
Lemma forEach_priceStep_keeps (l : list string) :
  ∀ (result : gmap string R) (σ : ServiceState) result' σ',
    forEach priceStep result l σ = (Return result', σ') →
    clock σ' = clock σ ∧ cacheTTL σ' = cacheTTL σ.
Proof.
  induction l as [|b l IH]; intros result σ result' σ'; simpl.
  - rewrite run_ret. intros [= _ <-]. split; reflexivity.
  - rewrite run_bind.
    destruct (priceStep_run result b σ) as (v & σ1 & -> & Hclock & Httl & _).
    intros Hloop. apply IH in Hloop as [Hclock' Httl']. split; congruence.
Qed.

Lemma fetchPriceData_keeps (addresses : list string) (σ : ServiceState)
    (result : gmap string R) (σ' : ServiceState) :
  _fetchPriceData addresses σ = (Return result, σ') →
  clock σ' = clock σ ∧ cacheTTL σ' = cacheTTL σ.
Proof.
  destruct (fetchPriceData_unfold addresses σ) as (kept & n & _ & _ & ->).
  case_decide.
  - destruct (forEach_cached_prices EmptyString addresses ∅ (with_clock_next n σ))
      as (r & -> & _).
    intros [= _ <-]. split; reflexivity.
  - intros Hloop. apply forEach_priceStep_keeps in Hloop. exact Hloop.
Qed.

(** Two requests in a row, all within one TTL: the request that has to
    fetch an address stores it, and the next one returns the same price. *)
Lemma fetch_then_served (σ : ServiceState) (addresses : list string) (a : string) :
  a ∈ addresses → keys_apart a addresses →
  (∀ n, clock σ n ≠ 0) → (∀ i j, clock σ j - clock σ i <= cacheTTL σ) →
  (∀ k, 0 <= random σ k) →
  (∀ n, priceFresh (clock σ n) σ a = false) →
  ∃ result1 σ1 result2 σ2,
    _fetchPriceData addresses σ = (Return result1, σ1)
    ∧ _fetchPriceData addresses σ1 = (Return result2, σ2)
    ∧ result2 !! a = result1 !! a
    ∧ priceCache σ2 !! a = priceCache σ1 !! a
    ∧ priceCache σ2 !! (a +:+ "_time") = priceCache σ1 !! (a +:+ "_time").
Proof.
  intros Hin Hkeys Hnz Hspan Hrnd Hstale.
  destruct (fetchPriceData_stale σ addresses a Hin Hkeys Hstale)
    as (result1 & σ1 & Hrun & k & Hstored).
  destruct (refetched_entry_stored a (random σ) (clock σ k) σ1 result1 Hrnd Hstored)
    as (p & Hp & Hpnz & HT & Hres).
  destruct (fetchPriceData_keeps addresses σ result1 σ1 Hrun) as [Hclock1 Httl1].
  destruct (fetchPriceData_served σ1 addresses a p (clock σ k))
    as (result2 & σ2 & Hrun2 & Hres2 & Hp2 & HT2); try assumption.
  { apply Hnz. }
  { intros n. rewrite Hclock1, Httl1. apply Hspan. }
  exists result1, σ1, result2, σ2. split_and!; try assumption; congruence.
Qed.

Lemma dai_cached_price (t : R) : priceCache (dai_cached t) !! dai = Some 1.
Proof.
  simpl. rewrite lookup_insert_ne by (symmetry; apply time_key_ne).
  apply lookup_insert_eq.
Qed.

Lemma dai_cached_time (t : R) : priceCache (dai_cached t) !! (dai +:+ "_time") = Some 1000.
Proof. simpl. apply lookup_insert_eq. Qed.

Lemma keys_apart_single (a : string) : keys_apart a [a].
Proof.
  intros b Hb. apply list_elem_of_singleton in Hb as ->.
  split; [apply time_key_ne | symmetry; apply time_key_ne].
Qed.

Lemma price_cache_freshness_witness :
  (∃ result σ',
     _fetchPriceData [dai] (dai_cached (1000 + 5)) = (Return result, σ')
     ∧ result !! dai = Some 1
     ∧ priceCache σ' !! dai = Some 1
     ∧ priceCache σ' !! (dai +:+ "_time") = Some 1000)
  ∧ (∃ result σ',
       _fetchPriceData [dai] (dai_cached (1000 + 300001)) = (Return result, σ')
       ∧ refetched dai (random (dai_cached (1000 + 300001)))
           (1000 + cacheTTL (dai_cached (1000 + 300001)) + 1) σ' result).
Proof.
  split.
  - apply (price_cache_freshness (dai_cached (1000 + 5)) [dai] dai 1 1000 5).
    + apply list_elem_of_singleton. reflexivity.
    + apply keys_apart_single.
    + apply dai_cached_price.
    + lra.
    + apply dai_cached_time.
    + lra.
    + reflexivity.
    + simpl. lra.
  - apply (price_cache_freshness (dai_cached (1000 + 300001)) [dai] dai 1 1000 300001).
    + apply list_elem_of_singleton. reflexivity.
    + apply keys_apart_single.
    + apply dai_cached_price.
    + lra.
    + apply dai_cached_time.
    + lra.
    + reflexivity.
    + simpl. lra.
Defined.

(** ** Fallback to the cache *)

Lemma run_try_catch_throw {A : Type} (m : M A) (h : exn → M A)
    (σ σ' : ServiceState) (e : exn) :
  m σ = (Throw e, σ') → try_catch m h σ = h e σ'.
Proof. intros Hm. unfold try_catch. rewrite Hm. reflexivity. Qed.

Lemma cachedFallback_loop (σ : ServiceState) (l : list string) :
  ∀ (result : gmap string PriceInfo),
    ∃ result',
      forEach (λ result address,
          cachedPrice ← priceCache_get address;
          cachedVolatility ← volatilityCache_get address;
          if truthy cachedPrice || truthy cachedVolatility then
            mret (<[address := {| price := Some (js_or cachedPrice 0);
                                  volatility24h := Some (js_or cachedVolatility 0) |}]>
                    result)
          else mret result) result l σ
      = (Return result', σ)
      ∧ ∀ a, result' !! a
             = if decide (a ∈ l) then
                 match fallbackEntry σ a with
                 | Some entry => Some entry
                 | None => result !! a
                 end
               else result !! a.
Proof.
  induction l as [|b l IH]; intros result.
  - exists result. split; [reflexivity|]. intros a. reflexivity.
  - simpl. rewrite run_bind. unfold priceCache_get at 1, volatilityCache_get at 1, gets.
    rewrite !run_bind.
    set (step := if truthy (priceCache σ !! b) || truthy (volatilityCache σ !! b)
                 then <[b := {| price := Some (js_or (priceCache σ !! b) 0);
                                volatility24h := Some (js_or (volatilityCache σ !! b) 0) |}]>
                        result
                 else result).
    destruct (IH step) as (result' & Hrun & Hres).
    exists result'. split.
    + rewrite <- Hrun. subst step.
      destruct (truthy (priceCache σ !! b) || truthy (volatilityCache σ !! b));
        reflexivity.
    + intros a. rewrite Hres. subst step. unfold fallbackEntry.
      destruct (decide (a = b)) as [->|Hne].
      * rewrite (decide_True (P := b ∈ b :: l)) by (apply elem_of_cons; auto).
        destruct (truthy (priceCache σ !! b) || truthy (volatilityCache σ !! b));
          [|case_decide; reflexivity].
        case_decide; [reflexivity | apply lookup_insert_eq].
      * assert (Hiff : a ∈ b :: l ↔ a ∈ l).
        { rewrite elem_of_cons. split; [intros [?|?]; [congruence|assumption] | auto]. }
        rewrite (decide_ext _ _ _ _ Hiff).
        destruct (truthy (priceCache σ !! b) || truthy (volatilityCache σ !! b));
          [|reflexivity].
        rewrite lookup_insert_ne by congruence. reflexivity.
Qed.

Lemma cachedFallback_run (addresses : list string) (σ : ServiceState) :
  ∃ result,
    cachedFallback addresses σ = (Return result, σ)
    ∧ ∀ a, result !! a = if decide (a ∈ addresses) then fallbackEntry σ a else None.
Proof.
  destruct (cachedFallback_loop σ addresses ∅) as (result & Hrun & Hres).
  exists result. split; [exact Hrun|]. intros a. rewrite Hres.
  case_decide; [|apply lookup_empty].
  destruct (fallbackEntry σ a); [reflexivity | apply lookup_empty].
Qed.

Section Fallback.
Variable fetchPriceData fetchVolatilityData : list string → M (gmap string R).

(** C6: when a fetch throws, [getPriceData] still returns.  Its result
    holds, for each requested address, the price and volatility the caches
    have for it, whatever their age, and has no entry for an address
    neither cache knows. *)
Theorem getPriceData_falls_back_to_cache (tokens : list Token)
    (σ σ' : ServiceState) (e : exn) :
  let addresses := (λ tok, toLowerCase (address tok)) <$> tokens in
  tokens ≠ [] →
  (fetchPriceData addresses σ = (Throw e, σ')
   ∨ ∃ priceData σ1,
       fetchPriceData addresses σ = (Return priceData, σ1)
       ∧ fetchVolatilityData addresses σ1 = (Throw e, σ')) →
  ∃ result,
    getPriceData_with fetchPriceData fetchVolatilityData (Some tokens) σ
    = (Return result, σ')
    ∧ (∀ a p, a ∈ addresses → priceCache σ' !! a = Some p → p ≠ 0 →
              result !! a
              = Some {| price := Some p;
                        volatility24h := Some (js_or (volatilityCache σ' !! a) 0) |})
    ∧ (∀ a v, a ∈ addresses → volatilityCache σ' !! a = Some v → v ≠ 0 →
              result !! a
              = Some {| price := Some (js_or (priceCache σ' !! a) 0);
                        volatility24h := Some v |})
    ∧ (∀ a, priceCache σ' !! a = None → volatilityCache σ' !! a = None →
            result !! a = None)
    ∧ (∀ a, a ∉ addresses → result !! a = None).
Proof.
  intros addresses Hne Hthrow.
  destruct (cachedFallback_run addresses σ') as (result & Hrun & Hres).
  exists result. split.
  - destruct tokens as [|tok tokens']; [contradiction|].
    unfold getPriceData_with. fold addresses.
    erewrite run_try_catch_throw; [exact Hrun|].
    rewrite run_bind.
    destruct Hthrow as [Hp|(priceData & σ1 & Hp & Hv)]; rewrite Hp; [reflexivity|].
    rewrite run_bind, Hv. reflexivity.
  - split_and!.
    + intros a p Hin Hp Hnz. rewrite Hres, decide_True by assumption.
      unfold fallbackEntry. rewrite Hp. simpl.
      rewrite (bool_decide_eq_true_2 (p ≠ 0) Hnz). simpl.
      rewrite decide_False by assumption. reflexivity.
    + intros a v Hin Hv Hnz. rewrite Hres, decide_True by assumption.
      unfold fallbackEntry. rewrite Hv. simpl.
      rewrite (bool_decide_eq_true_2 (v ≠ 0) Hnz), orb_true_r. simpl.
      rewrite decide_False by assumption. reflexivity.
    + intros a Hp Hv. rewrite Hres. unfold fallbackEntry. rewrite Hp, Hv.
      case_decide; reflexivity.
    + intros a Hnin. rewrite Hres, decide_False by assumption. reflexivity.
Qed.
End Fallback.

Lemma getPriceData_falls_back_to_cache_witness :
  [dai_token] ≠ []
  ∧ provider_down ((λ tok, toLowerCase (address tok)) <$> [dai_token])
      (dai_cached 1000000000)
    = (Throw (ProviderError "timeout"), dai_cached 1000000000)
  ∧ (∀ n, clock (dai_cached 1000000000) n - 1000 > cacheTTL (dai_cached 1000000000))
  ∧ ∃ result,
      getPriceData_with provider_down provider_down (Some [dai_token])
        (dai_cached 1000000000)
      = (Return result, dai_cached 1000000000)
      ∧ result !! dai = Some {| price := Some 1; volatility24h := Some 0 |}.
Proof.
  split; [discriminate|]. split; [reflexivity|]. split; [intros n; simpl; lra|].
  destruct (getPriceData_falls_back_to_cache provider_down provider_down
              [dai_token] (dai_cached 1000000000) (dai_cached 1000000000)
              (ProviderError "timeout"))
    as (result & Hrun & Hprice & _); [discriminate | left; reflexivity |].
  exists result. split; [exact Hrun|].
  rewrite (Hprice dai 1).
  - reflexivity.
  - apply list_elem_of_singleton. reflexivity.
  - apply dai_cached_price.
  - lra.
Defined.

(** ** Determinism of the scorer *)







(** The data-source stub, by contrast, depends on the random source. *)
Lemma mockSlippage_unknown : mockSlippage !! "0xaaaa"%string = None.
Proof.
  unfold mockSlippage. simpl.
  rewrite !lookup_insert_ne by discriminate. apply lookup_empty.
Qed.

Lemma getSlippageData_depends_on_random :
  ∃ (tokens : list Token) (σ1 σ2 : ServiceState),
    priceCache σ1 = priceCache σ2 ∧ clock σ1 = clock σ2
    ∧ (getSlippageData (Some tokens) σ1).1 ≠ (getSlippageData (Some tokens) σ2).1.
Proof.
  exists [unpriced_token], (new_PriceService (λ _, 0) (λ _, 0)),
    (new_PriceService (λ _, 0) (λ _, 0.5)).
  split; [reflexivity|]. split; [reflexivity|].
  unfold getSlippageData.
  change ((λ tok, toLowerCase (address tok)) <$> [unpriced_token])
    with ["0xaaaa"%string].
  unfold forEach. rewrite !run_bind, mockSlippage_unknown. simpl.
  intros Heq.
  apply (f_equal (λ c : completion (gmap string SlippageInfo),
                    match c with
                    | Return m => m !! "0xaaaa"%string
                    | Throw _ => None
                    end)) in Heq.
  rewrite !lookup_insert_eq in Heq. injection Heq as Hs _. lra.
Qed.

(** ** The pinned values in binary64 *)

Example weights_sum64 : (0.4 + 0.3 + 0.3)%float = 1%float.
Proof. vm_compute. reflexivity. Qed.

Example volatility_150_score64 : volatilityScore64 150 = (-0.5)%float.
Proof. vm_compute. reflexivity. Qed.

Example slippage_20_score64 : slippageScore64 20 = (-1)%float.
Proof. vm_compute. reflexivity. Qed.

Example zero_price_usd64 : PrimFloat.leb (10 * 0) 0 = true.
Proof. vm_compute. reflexivity. Qed.

Example low_balance_score64 : lowBalanceScore64 3 = 0.18%float.
Proof. vm_compute. reflexivity. Qed.

(** The "perfect" asset: the fallbacks replace the two zeros and the score
    is the balance weight. *)
Example perfect_asset_score64 :
  score64 1 (volatilityScore64 (js_or64 0 100)) (slippageScore64 (js_or64 0 10))
  = 0.4%float.
Proof. vm_compute. reflexivity. Qed.

(** Had the zeros been kept, the score would be exactly 1. *)
Example unit_subscores_score64 :
  score64 1 (volatilityScore64 0) (slippageScore64 0) = 1%float.
Proof. vm_compute. reflexivity. Qed.

(** * Further properties of the scorer *)

(** The head of a descending stable sort: the first element whose key no
    other element exceeds, when the elements before it have smaller keys. *)
Section SortHead.
Context {A : Type} (key : A → R).

Local Abbreviation comparefn := (λ a b : A, key b - key a).

Lemma sort_insert_max (x : A) (l : list A) :
  (∀ y, y ∈ l → key y <= key x) →
  sort_insert comparefn x (sort comparefn l) = x :: sort comparefn l.
Proof.
  intros Hmax.
  destruct (sort comparefn l) as [|h rest] eqn:Hs; [reflexivity|].
  simpl. rewrite decide_False; [reflexivity|].
  assert (h ∈ l) as Hh.
  { rewrite <- (sort_perm key l), Hs. apply elem_of_cons. left. reflexivity. }
  specialize (Hmax h Hh). lra.
Qed.

Lemma sort_head (before after : list A) (x : A) :
  (∀ y, y ∈ before → key y < key x) →
  (∀ y, y ∈ after → key y <= key x) →
  ∃ rest, sort comparefn (before ++ x :: after) = x :: rest.
Proof.
  intros Hbefore Hafter. induction before as [|y before IH]; simpl.
  - rewrite sort_insert_max by assumption. eauto.
  - destruct IH as (rest & ->).
    { intros z Hz. apply Hbefore. apply elem_of_cons. right. assumption. }
    simpl. rewrite decide_True.
    + eauto.
    + assert (key y < key x) by (apply Hbefore; apply elem_of_cons; auto). lra.
Qed.
End SortHead.

Lemma normalizeBalance_pos (u : R) : 0 < u → 0 < _normalizeBalance u.
Proof.
  intros Hu. destruct (Rlt_le_dec u 5) as [Hlt|Hge].
  - rewrite normalizeBalance_linear by assumption. lra.
  - rewrite normalizeBalance_log by assumption.
    assert (ln 5 <= ln u) by (apply ln_le_mono; lra).
    pose proof ln_five. apply Rmin_glb_lt; lra.
Qed.

(** The balance score grows with the USD balance (the cases of
    [_normalizeBalance], for the ranking results below). *)
Lemma normalizeBalance_le (u1 u2 : R) :
  0 < u1 → u1 <= u2 → _normalizeBalance u1 <= _normalizeBalance u2.
Proof.
  intros H0 Hle.
  destruct (Rlt_le_dec u2 5) as [H2|H2].
  - rewrite !normalizeBalance_linear by lra. lra.
  - destruct (Rlt_le_dec u1 5) as [H1|H1].
    + rewrite (normalizeBalance_linear u1) by assumption.
      rewrite (normalizeBalance_log u2) by assumption.
      assert (ln 5 <= ln u2) by (apply ln_le_mono; lra).
      pose proof ln_five. apply Rmin_glb; lra.
    + rewrite !normalizeBalance_log by assumption.
      apply Rle_min_compat_l.
      assert (ln u1 <= ln u2) by (apply ln_le_mono; lra). lra.
Qed.

Section ScorerFurther.
Variable parseFloat : string → option R.
Variable toFixed : R → nat → string.

Local Abbreviation scoreToken' := (scoreToken parseFloat toFixed).
Local Abbreviation scoreTokens' := (scoreTokens parseFloat toFixed).

(** The three outcomes of the callback. *)
Lemma scoreToken_cases (priceData : gmap string PriceInfo)
    (slippageData : gmap string SlippageInfo) (tok : Token) :
  let usd := tokenBalance parseFloat tok * tokenPrice priceData tok in
  (usd <= 0 ∧ scoreToken' priceData slippageData tok = zero_balance_result tok)
  ∨ (usd > 0 ∧ tokenPrice priceData tok <= 0
     ∧ scoreToken' priceData slippageData tok = no_price_result tok)
  ∨ (usd > 0 ∧ tokenPrice priceData tok > 0
     ∧ scoreToken' priceData slippageData tok
       = {| token := tok; usdBalance := Some usd;
            volatilityScore := Some (1 - tokenVolatility priceData tok / 100);
            slippageScore := Some (1 - tokenSlippage slippageData tok / 10);
            score := 0.4 * _normalizeBalance usd
                     + 0.3 * (1 - tokenVolatility priceData tok / 100)
                     + 0.3 * (1 - tokenSlippage slippageData tok / 10);
            reasons := _generateReasons toFixed usd (tokenVolatility priceData tok)
                         (tokenSlippage slippageData tok) |}).
Proof.
  intros usd. subst usd.
  destruct (Rle_lt_dec (tokenBalance parseFloat tok * tokenPrice priceData tok) 0)
    as [Hle|Hgt].
  - left. split; [assumption | apply scoreToken_zero_balance; assumption].
  - right. destruct (Rle_lt_dec (tokenPrice priceData tok) 0) as [Hp|Hp].
    + left. split_and!; [lra | assumption | apply scoreToken_no_price; lra].
    + right. split_and!; [lra | lra | apply scoreToken_scored; lra].
Qed.

Lemma scoreToken_token (priceData : gmap string PriceInfo)
    (slippageData : gmap string SlippageInfo) (tok : Token) :
  token (scoreToken' priceData slippageData tok) = tok.
Proof.
  destruct (scoreToken_cases priceData slippageData tok)
    as [[_ ->]|[(_ & _ & ->)|(_ & _ & ->)]]; reflexivity.
Qed.

Lemma generateReasons_length (usd v s : R) :
  length (_generateReasons toFixed usd v s)
  = (1 + (if decide (v < 5 ∨ v > 20)%R then 1 else 0)
     + (if decide (s < 0.5 ∨ s > 3)%R then 1 else 0))%nat.
Proof.
  unfold _generateReasons.
  repeat case_decide; simpl; try reflexivity; exfalso; lra.
Qed.

(** X1: every scored token carries between one and three reasons.  The
    two score-0 outcomes carry one; a fully scored token carries its balance
    reason, one more when the volatility is below 5 or above 20, and one
    more when the slippage is below 0.5 or above 3: in the bands between,
    nothing is said. *)
Theorem scoreToken_reasons_count (priceData : gmap string PriceInfo)
    (slippageData : gmap string SlippageInfo) (tok : Token) :
  let scored := scoreToken' priceData slippageData tok in
  let v := tokenVolatility priceData tok in
  let s := tokenSlippage slippageData tok in
  (1 <= length (reasons scored) <= 3)%nat
  ∧ (usdBalance scored = None → length (reasons scored) = 1%nat)
  ∧ (usdBalance scored ≠ None →
     length (reasons scored)
     = (1 + (if decide (v < 5 ∨ v > 20)%R then 1 else 0)
        + (if decide (s < 0.5 ∨ s > 3)%R then 1 else 0))%nat).
Proof.
  intros scored v s. subst scored v s.
  destruct (scoreToken_cases priceData slippageData tok)
    as [[_ ->]|[(_ & _ & ->)|(_ & _ & ->)]]; simpl.
  - split_and!; [lia | lia | reflexivity | congruence].
  - split_and!; [lia | lia | reflexivity | congruence].
  - rewrite generateReasons_length.
    split_and!; try (repeat case_decide; lia); try discriminate; reflexivity.
Qed.

(** X2: with a volatility between 0 and 100 and a slippage between 0 and
    10 (or none on record) the composite score of a token lies between 0
    and 1.  The upper bound is not strict: computed in doubles the sum
    rounds to exactly 1 for a large balance with a tiny volatility and
    slippage (example [tiny_subscores_score64]). *)
Theorem score_in_unit_interval (priceData : gmap string PriceInfo)
    (slippageData : gmap string SlippageInfo) (tok : Token) :
  (∀ v, priceData !! toLowerCase (address tok) ≫= volatility24h = Some v
        → 0 <= v <= 100) →
  (∀ s, slippageData !! toLowerCase (address tok) ≫= slippage = Some s
        → 0 <= s <= 10) →
  0 <= score (scoreToken' priceData slippageData tok) <= 1.
Proof.
  intros Hv Hs. split.
  - destruct (scoreToken_cases priceData slippageData tok)
      as [[_ ->]|[(_ & _ & ->)|(Husd & _ & ->)]]; simpl; [lra | lra |].
    assert (tokenVolatility priceData tok <= 100) as Hvol.
    { unfold tokenVolatility.
      destruct (js_or_cases (priceData !! toLowerCase (address tok) ≫= volatility24h) 100)
        as [[-> _]|[Hsome Hnz]]; [lra|].
      specialize (Hv _ Hsome). lra. }
    assert (tokenSlippage slippageData tok <= 10) as Hslip.
    { unfold tokenSlippage.
      destruct (js_or_cases (slippageData !! toLowerCase (address tok) ≫= slippage) 10)
        as [[-> _]|[Hsome Hnz]]; [lra|].
      specialize (Hs _ Hsome). lra. }
    pose proof (normalizeBalance_pos _ Husd). lra.
  - apply Rlt_le, score_below_one.
    + intros v Hsome. specialize (Hv v Hsome). lra.
    + intros s Hsome. specialize (Hs s Hsome). lra.
Qed.

(** X3: a non-empty request with both data objects returns; [allScores]
    holds exactly the requested tokens, each once (a rearrangement of the
    request, duplicates kept), and the recommended token is its first
    entry. *)
Theorem scoreTokens_keeps_every_token (tok : Token) (tokens : list Token)
    (priceData : gmap string PriceInfo) (slippageData : gmap string SlippageInfo) :
  ∃ rec best,
    scoreTokens' (Some (tok :: tokens)) (Some priceData) (Some slippageData)
    = Return (Some rec)
    ∧ token <$> allScores rec ≡ₚ tok :: tokens
    ∧ length (allScores rec) = S (length tokens)
    ∧ recommendedToken rec = Some best
    ∧ head (allScores rec) = Some best.
Proof.
  set (scored := scoreToken' priceData slippageData <$> tok :: tokens).
  assert (Hperm : sort (λ a b, score b - score a) scored ≡ₚ scored)
    by apply sort_perm.
  assert (Htok : token <$> scored = tok :: tokens).
  { subst scored. rewrite <- list_fmap_compose.
    rewrite <- (list_fmap_id (tok :: tokens)) at 2.
    apply list_fmap_ext. intros i t _. simpl. apply scoreToken_token. }
  destruct (sort (λ a b, score b - score a) scored) as [|best rest] eqn:Hsort.
  { apply Permutation_nil in Hperm. discriminate. }
  exists {| recommendedToken := Some best; allScores := best :: rest |}, best.
  split_and!.
  - rewrite scoreTokens_nonempty by discriminate. cbv zeta. fold scored.
    rewrite Hsort. reflexivity.
  - simpl allScores. rewrite Hperm. rewrite Htok. reflexivity.
  - simpl allScores. rewrite Hperm. subst scored.
    rewrite length_fmap. reflexivity.
  - reflexivity.
  - reflexivity.
Qed.

(** X4: ties go to the earlier token.  Whatever scores the scored tokens
    carry, the sort of [scoreTokens] puts first, and so recommends, the
    first of them that no other beats: those before it score strictly less,
    those after it at most as much.  (On doubles [b.score - a.score] has the
    sign of the exact difference, so the comparison is the one of the
    source.) *)
Theorem sorted_tokens_first_best (before after : list ScoredToken)
    (best : ScoredToken) :
  (∀ t, t ∈ before → score t < score best) →
  (∀ t, t ∈ after → score t <= score best) →
  let scoredTokens := before ++ best :: after in
  let sortedTokens := sort (λ a b, score b - score a) scoredTokens in
  sortedTokens !! 0%nat = Some best
  ∧ sortedTokens ≡ₚ scoredTokens.
Proof.
  intros Hbefore Hafter scoredTokens sortedTokens. subst scoredTokens sortedTokens.
  split; [|apply sort_perm].
  destruct (sort_head score before after best Hbefore Hafter) as [rest ->].
  reflexivity.
Qed.

(** X5: among funded tokens with the same volatility and slippage, a larger
    USD balance never scores less. *)
Theorem score_monotone_in_usd_balance (priceData : gmap string PriceInfo)
    (slippageData : gmap string SlippageInfo) (t1 t2 : Token) :
  0 < tokenPrice priceData t1 → 0 < tokenPrice priceData t2 →
  tokenVolatility priceData t1 = tokenVolatility priceData t2 →
  tokenSlippage slippageData t1 = tokenSlippage slippageData t2 →
  0 < tokenBalance parseFloat t1 * tokenPrice priceData t1
    <= tokenBalance parseFloat t2 * tokenPrice priceData t2 →
  score (scoreToken' priceData slippageData t1)
  <= score (scoreToken' priceData slippageData t2).
Proof.
  intros Hp1 Hp2 Hv Hs [Hpos Hle].
  rewrite !scoreToken_scored by lra. simpl.
  rewrite Hv, Hs.
  pose proof (normalizeBalance_le _ _ Hpos Hle). lra.
Qed.

End ScorerFurther.

(** The sample tokens, as the scorer reads them. *)
Lemma dai_lookup :
  dai_data !! toLowerCase (address dai_token)
  = Some {| price := Some 1.0; volatility24h := Some 0.2 |}.
Proof. apply (lookup_singleton_eq (M := gmap string)). Qed.

Lemma dai_slippage_lookup :
  dai_slippage !! toLowerCase (address dai_token)
  = Some {| slippage := Some 0.1; estimatedFee := Some 0.05 |}.
Proof. apply (lookup_singleton_eq (M := gmap string)). Qed.





Lemma volatile_tokenBalance : tokenBalance parseDecimal volatile_token = 10.
Proof.
  unfold tokenBalance. simpl balance. rewrite parseDecimal_10.
  apply js_or_nonzero. lra.
Qed.

Lemma volatile_tokenPrice (tok : Token) :
  address tok = "0xDDDD"%string → tokenPrice volatile_data tok = 2.
Proof.
  intros Ha. unfold tokenPrice. rewrite Ha.
  pose proof volatile_lookup as Hlookup.
  change (address volatile_token) with "0xDDDD"%string in Hlookup.
  rewrite Hlookup. apply js_or_nonzero. lra.
Qed.

Lemma volatile_tokenVolatility (tok : Token) :
  address tok = "0xDDDD"%string → tokenVolatility volatile_data tok = 150.
Proof.
  intros Ha. unfold tokenVolatility. rewrite Ha.
  pose proof volatile_lookup as Hlookup.
  change (address volatile_token) with "0xDDDD"%string in Hlookup.
  rewrite Hlookup. apply js_or_nonzero. lra.
Qed.

Lemma volatile_tokenSlippage (tok : Token) :
  address tok = "0xDDDD"%string → tokenSlippage volatile_slippage tok = 20.
Proof.
  intros Ha. unfold tokenSlippage. rewrite Ha.
  pose proof volatile_slippage_lookup as Hlookup.
  change (address volatile_token) with "0xDDDD"%string in Hlookup.
  rewrite Hlookup. apply js_or_nonzero. lra.
Qed.

Lemma volatile_large_tokenBalance :
  tokenBalance parseDecimal volatile_token_large = 1000.
Proof.
  unfold tokenBalance. simpl balance. rewrite parseDecimal_1000.
  apply js_or_nonzero. lra.
Qed.

Lemma volatile_token_score_negative :
  score (scoreToken parseDecimal toFixedDecimal volatile_data volatile_slippage
           volatile_token) < 0.
Proof.
  pose proof volatile_tokenBalance as Hb.
  pose proof (volatile_tokenPrice volatile_token eq_refl) as Hp.
  rewrite scoreToken_scored by (rewrite ?Hb, ?Hp; lra). simpl.
  rewrite (volatile_tokenVolatility volatile_token eq_refl).
  rewrite (volatile_tokenSlippage volatile_token eq_refl).
  rewrite Hb, Hp.
  pose proof (normalizeBalance_range (10 * 2)). lra.
Qed.

Lemma score_in_unit_interval_witness :
  0 <= score (scoreToken parseDecimal toFixedDecimal dai_data dai_slippage dai_token)
    <= 1.
Proof.
  apply (score_in_unit_interval parseDecimal toFixedDecimal dai_data dai_slippage
           dai_token).
  - intros v Hv. rewrite dai_lookup in Hv. simpl in Hv.
    injection Hv as <-. lra.
  - intros s Hs. rewrite dai_slippage_lookup in Hs. simpl in Hs.
    injection Hs as <-. lra.
Defined.

Lemma sorted_tokens_first_best_witness :
  let funded := scoreToken parseDecimal toFixedDecimal volatile_data volatile_slippage
                  volatile_token in
  let scoredTokens := [funded; zero_balance_result unparsable_token;
                       zero_balance_result unpriced_token] in
  let sortedTokens := sort (λ a b, score b - score a) scoredTokens in
  sortedTokens !! 0%nat = Some (zero_balance_result unparsable_token)
  ∧ sortedTokens ≡ₚ scoredTokens.
Proof.
  apply (sorted_tokens_first_best
           [scoreToken parseDecimal toFixedDecimal volatile_data volatile_slippage
              volatile_token]
           [zero_balance_result unpriced_token]
           (zero_balance_result unparsable_token)).
  - intros t ->%list_elem_of_singleton. simpl.
    apply volatile_token_score_negative.
  - intros t ->%list_elem_of_singleton. simpl. lra.
Defined.

Lemma score_monotone_in_usd_balance_witness :
  score (scoreToken parseDecimal toFixedDecimal volatile_data volatile_slippage
           volatile_token)
  <= score (scoreToken parseDecimal toFixedDecimal volatile_data volatile_slippage
              volatile_token_large).
Proof.
  apply (score_monotone_in_usd_balance parseDecimal toFixedDecimal volatile_data
           volatile_slippage volatile_token volatile_token_large).
  - rewrite (volatile_tokenPrice volatile_token eq_refl). lra.
  - rewrite (volatile_tokenPrice volatile_token_large eq_refl). lra.
  - rewrite !volatile_tokenVolatility; reflexivity.
  - rewrite !volatile_tokenSlippage; reflexivity.
  - rewrite volatile_tokenBalance, volatile_large_tokenBalance.
    rewrite !volatile_tokenPrice by reflexivity. lra.
Defined.


(** In binary64 the score of a large balance with a tiny volatility and
    slippage rounds to exactly 1. *)
Example tiny_subscores_score64 :
  score64 1 (volatilityScore64 (js_or64 1e-15 100)) (slippageScore64 (js_or64 1e-16 10))
  = 1%float.
Proof. vm_compute. reflexivity. Qed.

(** * Further properties of the price service *)

Lemma ownKey_digit (s : string) : ownKey (String "0" s).
Proof.
  unfold ownKey, Object_prototype. intros Hin.
  repeat (apply elem_of_cons in Hin as [Hin|Hin]; [discriminate Hin|]).
  inversion Hin.
Qed.

Lemma positive_values_insert (m : gmap string R) (key : string) (v : R) :
  positive_values m → 0 < v → positive_values (<[key := v]> m).
Proof.
  intros Hm Hv k w Hk. destruct (decide (k = key)) as [->|Hne].
  - rewrite lookup_insert_eq in Hk. injection Hk as <-. assumption.
  - rewrite lookup_insert_ne in Hk by congruence. eapply Hm, Hk.
Qed.

Lemma positive_values_empty : positive_values ∅.
Proof. intros k v Hk. rewrite lookup_empty in Hk. discriminate. Qed.

Lemma new_PriceService_ok (clk rnd : nat → R) :
  (∀ n, 0 < clk n) → (∀ k, 0 <= rnd k < 1) → service_ok (new_PriceService clk rnd).
Proof.
  intros Hclk Hrnd. split_and!; simpl; auto using positive_values_empty.
Qed.

Lemma service_ok_clock_next (n : nat) (σ : ServiceState) :
  service_ok σ → service_ok (with_clock_next n σ).
Proof. intros (? & ? & ? & ?). split_and!; assumption. Qed.

Lemma service_ok_random_next (n : nat) (σ : ServiceState) :
  service_ok σ → service_ok (with_random_next n σ).
Proof. intros (? & ? & ? & ?). split_and!; assumption. Qed.

(** A loop whose body sets [result[address]] at each address: it returns,
    keeps an invariant of the body, and [result] holds an entry for each
    address of the loop and for those it had. *)
Lemma forEach_inserts {V : Type} (body : gmap string V → string → M (gmap string V))
    (I : ServiceState → Prop) (P : string → V → Prop) :
  (∀ result a σ, I σ →
     ∃ v σ', body result a σ = (Return (<[a := v]> result), σ') ∧ I σ' ∧ P a v) →
  ∀ (l : list string) (result : gmap string V) (σ : ServiceState),
    I σ →
    ∃ result' σ',
      forEach body result l σ = (Return result', σ') ∧ I σ'
      ∧ (∀ a, a ∈ l ∨ is_Some (result !! a) → is_Some (result' !! a))
      ∧ (∀ a v, result' !! a = Some v → (a ∈ l ∧ P a v) ∨ result !! a = Some v).
Proof.
  intros Hbody. induction l as [|b l IH]; intros result σ HI.
  - exists result, σ. split_and!; try assumption.
    + reflexivity.
    + intros a [Hin|Hsome]; [inversion Hin | assumption].
    + intros a v Hv. right. assumption.
  - destruct (Hbody result b σ HI) as (v & σ1 & Hrun & HI1 & HP).
    destruct (IH (<[b := v]> result) σ1 HI1) as (result' & σ' & Hrun' & HI' & Hdom & Hval).
    exists result', σ'. split_and!; try assumption.
    + simpl. rewrite run_bind, Hrun. exact Hrun'.
    + intros a [Hin|Hsome]; apply Hdom.
      * apply elem_of_cons in Hin as [->|Hin]; [right|left; assumption].
        rewrite lookup_insert_eq. eauto.
      * right. destruct (decide (a = b)) as [->|Hne].
        -- rewrite lookup_insert_eq. eauto.
        -- rewrite lookup_insert_ne by congruence. assumption.
    + intros a w Hw. destruct (Hval a w Hw) as [[Hin HPa]|Hins].
      * left. split; [apply elem_of_cons; right|]; assumption.
      * destruct (decide (a = b)) as [->|Hne].
        -- rewrite lookup_insert_eq in Hins. injection Hins as <-.
           left. split; [apply elem_of_cons; left; reflexivity | assumption].
        -- rewrite lookup_insert_ne in Hins by congruence. right. assumption.
Qed.

(** A filter that reads a cache and the clock: when it keeps no address,
    every address had a truthy entry. *)
Lemma filterM_none (keep : string → M bool) (cacheOf : ServiceState → gmap string R) :
  (∀ n σ, cacheOf (with_clock_next n σ) = cacheOf σ) →
  (∀ a σ, ∃ (kept : bool) n,
     keep a σ = (Return kept, with_clock_next n σ)
     ∧ (kept = false → truthy (cacheOf σ !! a) = true)) →
  ∀ (l : list string) (σ : ServiceState),
    ∃ kept n,
      filterM keep l σ = (Return kept, with_clock_next n σ)
      ∧ (kept = [] → ∀ a, a ∈ l → truthy (cacheOf σ !! a) = true).
Proof.
  intros Hcache Hkeep. induction l as [|b l IH]; intros σ.
  - exists [], (clock_next σ). split; [destruct σ; reflexivity|].
    intros _ a Hin. inversion Hin.
  - destruct (Hkeep b σ) as (kb & n1 & Hb & Htruthy).
    destruct (IH (with_clock_next n1 σ)) as (kept & n & Hrun & Hnone).
    exists (if kb then b :: kept else kept), n. split.
    + simpl. rewrite run_bind, Hb, run_bind, Hrun, run_ret. reflexivity.
    + intros Hnil a Hin. destruct kb; [discriminate|].
      apply elem_of_cons in Hin as [->|Hin]; [auto|].
      rewrite <- (Hcache n1 σ). apply Hnone; assumption.
Qed.

Lemma priceNeedsFetch_false (a : string) (σ : ServiceState) :
  ∃ (kept : bool) n,
    priceNeedsFetch a σ = (Return kept, with_clock_next n σ)
    ∧ (kept = false → truthy (priceCache σ !! a) = true).
Proof.
  destruct (priceNeedsFetch_run a σ) as (n & Hrun).
  eexists _, n. split; [exact Hrun|].
  intros Hfresh%negb_false_iff. unfold priceFresh in Hfresh.
  apply andb_true_iff in Hfresh as [Hfresh _].
  apply andb_true_iff in Hfresh as [Hfresh _]. assumption.
Qed.

Lemma volatilityNeedsFetch_false (a : string) (σ : ServiceState) :
  ∃ (kept : bool) n,
    volatilityNeedsFetch a σ = (Return kept, with_clock_next n σ)
    ∧ (kept = false → truthy (volatilityCache σ !! a) = true).
Proof.
  unfold volatilityNeedsFetch, volatilityCache_get, gets.
  rewrite !run_bind. simpl.
  destruct (truthy (volatilityCache σ !! a)) eqn:Hcached; simpl.
  - destruct (truthy (volatilityCache σ !! (a +:+ "_vol_time"))); simpl.
    + eexists _, (S (clock_next σ)).
      rewrite run_bind, Date_now_run, run_bind. simpl. rewrite run_ret.
      split; [reflexivity | auto].
    + exists true, (clock_next σ). split; [destruct σ; reflexivity | discriminate].
  - exists true, (clock_next σ). split; [destruct σ; reflexivity | discriminate].
Qed.

Lemma truthy_positive (m : gmap string R) (key : string) :
  positive_values m → truthy (m !! key) = true →
  ∃ v, m !! key = Some v ∧ 0 < v ∧ js_or (m !! key) 0 = v.
Proof.
  intros Hm (v & Hv & Hnz)%truthy_true. exists v. split_and!.
  - assumption.
  - eapply Hm, Hv.
  - rewrite Hv. apply js_or_nonzero. assumption.
Qed.

(** One step of the price loop keeps the service sound and writes a
    positive price. *)
Lemma priceStep_ok (result : gmap string R) (a : string) (σ : ServiceState) :
  service_ok σ →
  ∃ v σ', priceStep result a σ = (Return (<[a := v]> result), σ')
          ∧ service_ok σ' ∧ 0 < v.
Proof.
  intros Hok. pose proof Hok as (Hclk & Hrnd & Hprice & Hvol).
  destruct (priceFresh (clock σ (clock_next σ)) σ a) eqn:Hfresh.
  - rewrite priceStep_cached by assumption.
    unfold priceFresh in Hfresh.
    apply andb_true_iff in Hfresh as [Hfresh _].
    apply andb_true_iff in Hfresh as [Hfresh _].
    destruct (truthy_positive _ a Hprice Hfresh) as (v & Hv & Hpos & _).
    eexists _, _. split; [reflexivity|]. split.
    + apply service_ok_clock_next, Hok.
    + rewrite Hv. simpl. assumption.
  - destruct (priceStep_fetch result a σ Hfresh) as (p & n & k & m & Hprov & Hrun).
    exists p. eexists. split; [exact Hrun|].
    assert (0 < p) as Hp.
    { apply (providerPrice_pos (random σ) a); [|assumption].
      intros j. apply Hrnd. }
    split; [|assumption].
    split_and!; simpl; try assumption.
    apply positive_values_insert; [apply positive_values_insert|]; auto.
Qed.

Lemma mockVolatility_pos (address : string) (v : R) :
  mockVolatility !! address = Some v → 0 < v.
Proof.
  intros Hv. apply elem_of_list_to_map_2 in Hv.
  repeat (apply elem_of_cons in Hv as [[= _ ->]|Hv]; [lra|]).
  inversion Hv.
Qed.

Lemma mockVolatilityOf_run (a : string) (σ : ServiceState) :
  (∀ k, 0 <= random σ k < 1) →
  ∃ v n, mockVolatilityOf a σ = (Return v, with_random_next n σ) ∧ 0 < v.
Proof.
  intros Hrnd. unfold mockVolatilityOf.
  destruct (mockVolatility !! a) as [v|] eqn:Hmock.
  - exists v, (random_next σ). split; [destruct σ; reflexivity|].
    eapply mockVolatility_pos, Hmock.
  - eexists _, _. split; [reflexivity|].
    specialize (Hrnd (random_next σ)). lra.
Qed.

(** One step of the volatility loop keeps the service sound and writes a
    positive volatility. *)
Lemma volatilityStep_ok (result : gmap string R) (a : string) (σ : ServiceState) :
  service_ok σ →
  ∃ v σ', volatilityStep result a σ = (Return (<[a := v]> result), σ')
          ∧ service_ok σ' ∧ 0 < v.
Proof.
  intros Hok. pose proof Hok as (Hclk & Hrnd & Hprice & Hvol).
  assert (Hfetch : ∀ σ0, service_ok σ0 →
    ∃ v σ',
      (volatility ← mockVolatilityOf a;
       volatilityCache_set a volatility;;
       t' ← Date_now;
       volatilityCache_set (a +:+ "_vol_time") t';;
       mret (<[a := volatility]> result)) σ0
      = (Return (<[a := v]> result), σ') ∧ service_ok σ' ∧ 0 < v).
  { intros σ0 (Hclk0 & Hrnd0 & Hprice0 & Hvol0).
    destruct (mockVolatilityOf_run a σ0 Hrnd0) as (v & n & Hrun & Hv).
    exists v. eexists. split; [rewrite run_bind, Hrun; reflexivity|].
    split; [|assumption].
    split_and!; simpl; try assumption.
    apply positive_values_insert; [apply positive_values_insert|]; auto. }
  unfold volatilityStep, volatilityCache_get, gets.
  rewrite !run_bind. simpl.
  destruct (bool_decide (is_Some (volatilityCache σ !! a))
            && truthy (volatilityCache σ !! (a +:+ "_vol_time"))) eqn:Hcached.
  - rewrite run_bind, Date_now_run, run_bind. simpl.
    destruct (within (clock σ (clock_next σ)) (cacheTTL σ)
                (volatilityCache σ !! (a +:+ "_vol_time"))).
    + apply andb_true_iff in Hcached as [Hsome _].
      apply bool_decide_eq_true_1 in Hsome as [v Hv].
      exists v. eexists. rewrite Hv. split; [reflexivity|].
      split; [apply service_ok_clock_next, Hok | eapply Hvol, Hv].
    + apply Hfetch. apply service_ok_clock_next, Hok.
  - rewrite run_ret. apply Hfetch, Hok.
Qed.

(** The loop of the branch that serves every address from the cache. *)
Lemma forEach_cached_ok (get : string → M (option R))
    (cacheOf : ServiceState → gmap string R) (l : list string) (σ : ServiceState) :
  (∀ key σ0, get key σ0 = (Return (cacheOf σ0 !! key), σ0)) →
  positive_values (cacheOf σ) →
  (∀ a, a ∈ l → truthy (cacheOf σ !! a) = true) →
  ∃ result : gmap string R,
    forEach (λ (result : gmap string R) address,
        cached ← get address;
        mret (<[address := js_or cached 0]> result)) ∅ l σ
    = (Return result, σ)
    ∧ ∀ a, a ∈ l → ∃ v, result !! a = Some v ∧ 0 < v.
Proof.
  intros Hget Hpos Htruthy.
  destruct (forEach_inserts
              (λ (result : gmap string R) address,
                 cached ← get address;
                 mret (<[address := js_or cached 0]> result))
              (λ σ0, σ0 = σ) (λ a v, v = js_or (cacheOf σ !! a) 0))
    with (l := l) (result := (∅ : gmap string R)) (σ := σ)
    as (result & σ' & Hrun & -> & Hdom & Hval).
  { intros result a σ0 ->. eexists _, _.
    rewrite run_bind, Hget, run_ret. split_and!; reflexivity. }
  { reflexivity. }
  exists result. split; [exact Hrun|].
  intros a Hin. destruct (Hdom a (or_introl Hin)) as [v Hv].
  exists v. split; [assumption|].
  destruct (Hval a v Hv) as [[_ ->]|Hempty].
  - destruct (truthy_positive _ a Hpos (Htruthy a Hin)) as (w & _ & Hw & ->).
    assumption.
  - rewrite lookup_empty in Hempty. discriminate.
Qed.

(** [_fetchPriceData] on a sound service returns a positive price for each
    address of the request and leaves the service sound. *)
Lemma fetchPriceData_ok (addresses : list string) (σ : ServiceState) :
  service_ok σ →
  ∃ result σ',
    _fetchPriceData addresses σ = (Return result, σ') ∧ service_ok σ'
    ∧ ∀ a, a ∈ addresses → ∃ v, result !! a = Some v ∧ 0 < v.
Proof.
  intros Hok.
  destruct (filterM_none priceNeedsFetch priceCache) with (l := addresses) (σ := σ)
    as (kept & n & Hfilter & Hnone).
  { reflexivity. }
  { apply priceNeedsFetch_false. }
  unfold _fetchPriceData. rewrite run_bind, Hfilter.
  pose proof (service_ok_clock_next n σ Hok) as Hok'.
  case_decide as Hlen.
  - apply length_zero_iff_nil in Hlen.
    destruct (forEach_cached_ok priceCache_get priceCache addresses (with_clock_next n σ))
      as (result & Hrun & Hres).
    { reflexivity. }
    { apply Hok'. }
    { apply Hnone, Hlen. }
    exists result, (with_clock_next n σ). split_and!; assumption.
  - destruct (forEach_inserts priceStep service_ok (λ _ v, 0 < v))
      with (l := addresses) (result := (∅ : gmap string R)) (σ := with_clock_next n σ)
      as (result & σ' & Hrun & Hok'' & Hdom & Hval).
    { intros result a σ0. apply priceStep_ok. }
    { exact Hok'. }
    exists result, σ'. split_and!; try assumption.
    intros a Hin. destruct (Hdom a (or_introl Hin)) as [v Hv].
    exists v. split; [assumption|].
    destruct (Hval a v Hv) as [[_ Hpos]|Hempty]; [assumption|].
    rewrite lookup_empty in Hempty. discriminate.
Qed.

Lemma fetchVolatilityData_ok (addresses : list string) (σ : ServiceState) :
  service_ok σ →
  ∃ result σ',
    _fetchVolatilityData addresses σ = (Return result, σ') ∧ service_ok σ'
    ∧ ∀ a, a ∈ addresses → ∃ v, result !! a = Some v ∧ 0 < v.
Proof.
  intros Hok.
  destruct (filterM_none volatilityNeedsFetch volatilityCache)
    with (l := addresses) (σ := σ) as (kept & n & Hfilter & Hnone).
  { reflexivity. }
  { apply volatilityNeedsFetch_false. }
  unfold _fetchVolatilityData. rewrite run_bind, Hfilter.
  pose proof (service_ok_clock_next n σ Hok) as Hok'.
  case_decide as Hlen.
  - apply length_zero_iff_nil in Hlen.
    destruct (forEach_cached_ok volatilityCache_get volatilityCache addresses
                (with_clock_next n σ)) as (result & Hrun & Hres).
    { reflexivity. }
    { apply Hok'. }
    { apply Hnone, Hlen. }
    exists result, (with_clock_next n σ). split_and!; assumption.
  - destruct (forEach_inserts volatilityStep service_ok (λ _ v, 0 < v))
      with (l := addresses) (result := (∅ : gmap string R)) (σ := with_clock_next n σ)
      as (result & σ' & Hrun & Hok'' & Hdom & Hval).
    { intros result a σ0. apply volatilityStep_ok. }
    { exact Hok'. }
    exists result, σ'. split_and!; try assumption.
    intros a Hin. destruct (Hdom a (or_introl Hin)) as [v Hv].
    exists v. split; [assumption|].
    destruct (Hval a v Hv) as [[_ Hpos]|Hempty]; [assumption|].
    rewrite lookup_empty in Hempty. discriminate.
Qed.

Lemma run_try_catch_return {A : Type} (m : M A) (h : exn → M A)
    (σ σ' : ServiceState) (a : A) :
  m σ = (Return a, σ') → try_catch m h σ = (Return a, σ').
Proof. intros Hm. unfold try_catch. rewrite Hm. reflexivity. Qed.

(** [getPriceData] with the service's own fetch methods, on a sound
    service. *)
Lemma getPriceData_run (tokens : list Token) (σ : ServiceState) :
  service_ok σ →
  ∃ result σ',
    getPriceData (Some tokens) σ = (Return result, σ') ∧ service_ok σ'
    ∧ (∀ a, a ∈ requestedAddresses tokens →
         ∃ p v, result !! a = Some {| price := Some p; volatility24h := Some v |}
                ∧ 0 < p ∧ 0 < v)
    ∧ (∀ a, is_Some (result !! a) → a ∈ requestedAddresses tokens).
Proof.
  intros Hok. destruct tokens as [|tok tokens].
  { exists ∅, σ. split_and!; try assumption.
    - reflexivity.
    - intros a Hin. inversion Hin.
    - intros a [info Hinfo]. rewrite lookup_empty in Hinfo. discriminate. }
  set (addresses := requestedAddresses (tok :: tokens)).
  destruct (fetchPriceData_ok addresses σ Hok) as (pd & σ1 & Hpd & Hok1 & Hprices).
  destruct (fetchVolatilityData_ok addresses σ1 Hok1) as (vd & σ2 & Hvd & Hok2 & Hvols).
  destruct (forEach_inserts
              (λ (result : gmap string PriceInfo) address,
                 mret (<[address :=
                           {| price := Some (js_or (pd !! address) 0);
                              volatility24h := Some (js_or (vd !! address) 0) |}]>
                         result))
              (λ σ0, σ0 = σ2)
              (λ a info, info = {| price := Some (js_or (pd !! a) 0);
                                   volatility24h := Some (js_or (vd !! a) 0) |}))
    with (l := addresses) (result := (∅ : gmap string PriceInfo)) (σ := σ2)
    as (result & σ' & Hrun & -> & Hdom & Hval).
  { intros result a σ0 ->. eexists _, _. rewrite run_ret. split_and!; reflexivity. }
  { reflexivity. }
  exists result, σ2. split_and!; try assumption.
  - unfold getPriceData, getPriceData_with.
    apply run_try_catch_return. fold (requestedAddresses (tok :: tokens)).
    fold addresses. rewrite run_bind, Hpd, run_bind, Hvd. exact Hrun.
  - intros a Hin.
    destruct (Hprices a Hin) as (p & Hp & Hppos).
    destruct (Hvols a Hin) as (v & Hv & Hvpos).
    exists p, v. split_and!; try assumption.
    destruct (Hdom a (or_introl Hin)) as [info Hinfo].
    destruct (Hval a info Hinfo) as [[_ ->]|Hempty].
    + rewrite Hinfo, Hp, Hv, !js_or_nonzero by lra. reflexivity.
    + rewrite lookup_empty in Hempty. discriminate.
  - intros a [info Hinfo].
    destruct (Hval a info Hinfo) as [[Hin _]|Hempty]; [assumption|].
    rewrite lookup_empty in Hempty. discriminate.
Qed.

Lemma mockSlippage_range (address : string) (s : R) :
  mockSlippage !! address = Some s → 0.05 <= s <= 1.8.
Proof.
  intros Hs. apply elem_of_list_to_map_2 in Hs.
  repeat (apply elem_of_cons in Hs as [[= _ ->]|Hs]; [lra|]).
  inversion Hs.
Qed.

(** [getSlippageData] with [Math.random()] in [0, 1). *)
Lemma getSlippageData_run (tokens : list Token) (σ : ServiceState) :
  (∀ k, 0 <= random σ k < 1) →
  ∃ result n,
    getSlippageData (Some tokens) σ = (Return result, with_random_next n σ)
    ∧ (∀ a, a ∈ requestedAddresses tokens → is_Some (result !! a))
    ∧ (∀ a info, result !! a = Some info →
         a ∈ requestedAddresses tokens
         ∧ ∃ s, info = {| slippage := Some s; estimatedFee := Some (s * 0.5) |}
                ∧ 0.05 <= s < 5
                ∧ ∀ m, mockSlippage !! a = Some m → s = m).
Proof.
  intros Hrnd. destruct tokens as [|tok tokens].
  { exists ∅, (random_next σ). split_and!.
    - destruct σ; reflexivity.
    - intros a Hin. inversion Hin.
    - intros a info Hinfo. rewrite lookup_empty in Hinfo. discriminate. }
  set (addresses := requestedAddresses (tok :: tokens)).
  destruct (forEach_inserts
              (λ (result : gmap string SlippageInfo) address,
                 slippage ←
                   match mockSlippage !! address with
                   | Some s => mret s
                   | None => r ← Math_random; mret (r * 4.5 + 0.5)
                   end;
                 mret (<[address := {| slippage := Some slippage;
                                       estimatedFee := Some (slippage * 0.5) |}]>
                         result))
              (λ σ0, ∃ n, σ0 = with_random_next n σ)
              (λ a info, ∃ s, info = {| slippage := Some s;
                                        estimatedFee := Some (s * 0.5) |}
                              ∧ 0.05 <= s < 5
                              ∧ ∀ m, mockSlippage !! a = Some m → s = m))
    with (l := addresses) (result := (∅ : gmap string SlippageInfo)) (σ := σ)
    as (result & σ' & Hrun & [n ->] & Hdom & Hval).
  { intros result a σ0 [n ->].
    destruct (mockSlippage !! a) as [s|] eqn:Hmock.
    - eexists _, _. rewrite run_bind, run_ret, run_ret.
      split; [reflexivity|]. split; [exists n; reflexivity|].
      exists s. split_and!; try reflexivity.
      + apply mockSlippage_range in Hmock. lra.
      + apply mockSlippage_range in Hmock. lra.
      + intros m [= ->]. reflexivity.
    - eexists _, _. rewrite run_bind. simpl.
      split; [reflexivity|]. split; [eexists; reflexivity|].
      eexists. split_and!; try reflexivity.
      + specialize (Hrnd n). lra.
      + specialize (Hrnd n). lra.
      + intros m Hm. discriminate. }
  { exists (random_next σ). destruct σ; reflexivity. }
  exists result, n. split_and!.
  - exact Hrun.
  - intros a Hin. apply Hdom. left. assumption.
  - intros a info Hinfo.
    destruct (Hval a info Hinfo) as [[Hin HP]|Hempty]; [split; assumption|].
    rewrite lookup_empty in Hempty. discriminate.
Qed.

(** X7: an address the price cache does not know is fetched from the
    provider, and a second request within the TTL returns the very same
    price, also when that price was drawn at random: the second request
    reads the cache, not the provider.  The addresses of the request are own
    keys: none is the name of a member of [Object.prototype]. *)
Theorem fetched_price_served_again (σ : ServiceState) (addresses : list string)
    (a : string) :
  (∀ b, b ∈ addresses → ownKey b) →
  a ∈ addresses → keys_apart a addresses →
  (∀ n, clock σ n ≠ 0) → (∀ i j, clock σ j - clock σ i <= cacheTTL σ) →
  (∀ k, 0 <= random σ k) →
  priceCache σ !! a = None →
  ∃ result1 σ1 result2 σ2 p,
    _fetchPriceData addresses σ = (Return result1, σ1)
    ∧ _fetchPriceData addresses σ1 = (Return result2, σ2)
    ∧ providerPrice (random σ) a p
    ∧ result1 !! a = Some p ∧ result2 !! a = Some p
    ∧ priceCache σ2 !! a = Some p.
Proof.
  intros _ Hin Hkeys Hnz Hspan Hrnd Hmiss.
  assert (Hstale : ∀ n, priceFresh (clock σ n) σ a = false).
  { intros n. unfold priceFresh. rewrite Hmiss. reflexivity. }
  destruct (fetchPriceData_stale σ addresses a Hin Hkeys Hstale)
    as (result1 & σ1 & Hrun & k & (p & Hprov & Hp & HT & Hres)).
  pose proof (providerPrice_pos (random σ) a p Hrnd Hprov) as Hpos.
  destruct (fetchPriceData_keeps addresses σ result1 σ1 Hrun) as [Hclock1 Httl1].
  destruct (fetchPriceData_served σ1 addresses a p (clock σ k))
    as (result2 & σ2 & Hrun2 & Hres2 & Hp2 & HT2); try assumption.
  { lra. }
  { apply Hnz. }
  { intros n. rewrite Hclock1, Httl1. apply Hspan. }
  exists result1, σ1, result2, σ2, p. split_and!; assumption.
Qed.

(** X8: on a sound service [getPriceData], asked for addresses that are
    own keys, never throws, leaves the service sound, and returns an entry
    for exactly the lower-cased addresses of the request, each with a
    positive price and a positive volatility; for [null] or an empty array
    the result is empty. *)
Theorem getPriceData_prices_every_token (tokens : option (list Token))
    (σ : ServiceState) :
  (∀ a, a ∈ requestedAddresses (default [] tokens) → ownKey a) →
  service_ok σ →
  ∃ result σ',
    getPriceData tokens σ = (Return result, σ') ∧ service_ok σ'
    ∧ ∀ a,
        match result !! a with
        | Some info =>
            a ∈ requestedAddresses (default [] tokens)
            ∧ ∃ p v, info = {| price := Some p; volatility24h := Some v |}
                     ∧ 0 < p ∧ 0 < v
        | None => a ∉ requestedAddresses (default [] tokens)
        end.
Proof.
  intros _ Hok. destruct tokens as [tokens|]; simpl.
  - destruct (getPriceData_run tokens σ Hok) as (result & σ' & Hrun & Hok' & Hin & Hdom).
    exists result, σ'. split_and!; try assumption.
    intros a. destruct (result !! a) as [info|] eqn:Hinfo.
    + assert (a ∈ requestedAddresses tokens) as Ha by (apply Hdom; eauto).
      split; [assumption|].
      destruct (Hin a Ha) as (p & v & Hpv & Hp & Hv).
      exists p, v. split_and!; congruence.
    + intros Ha. destruct (Hin a Ha) as (p & v & Hpv & _). congruence.
  - exists ∅, σ. split_and!; try assumption; [reflexivity|].
    intros a. rewrite lookup_empty. intros Ha. inversion Ha.
Qed.

(** X9: [getSlippageData], asked for addresses that are own keys, returns
    an entry for exactly the lower-cased addresses of the request; each
    entry's fee is half its slippage, the slippage lies in [0.05, 5) and is
    the listed one for a listed address.  The call moves the random source
    and nothing else: clock and caches are as before. *)
Theorem getSlippageData_entries (tokens : option (list Token)) (σ : ServiceState) :
  (∀ a, a ∈ requestedAddresses (default [] tokens) → ownKey a) →
  (∀ k, 0 <= random σ k < 1) →
  ∃ result n,
    getSlippageData tokens σ = (Return result, with_random_next n σ)
    ∧ ∀ a,
        match result !! a with
        | Some info =>
            a ∈ requestedAddresses (default [] tokens)
            ∧ ∃ s, info = {| slippage := Some s; estimatedFee := Some (s * 0.5) |}
                   ∧ 0.05 <= s < 5
                   ∧ ∀ m, mockSlippage !! a = Some m → s = m
        | None => a ∉ requestedAddresses (default [] tokens)
        end.
Proof.
  intros _ Hrnd. destruct tokens as [tokens|]; simpl.
  - destruct (getSlippageData_run tokens σ Hrnd) as (result & n & Hrun & Hin & Hval).
    exists result, n. split; [assumption|].
    intros a. destruct (result !! a) as [info|] eqn:Hinfo.
    + apply Hval, Hinfo.
    + intros Ha. destruct (Hin a Ha) as [info Hsome]. congruence.
  - exists ∅, (random_next σ). split; [destruct σ; reflexivity|].
    intros a. rewrite lookup_empty. intros Ha. inversion Ha.
Qed.


Lemma fetched_price_served_again_witness :
  ∃ result1 σ1 result2 σ2 p,
    _fetchPriceData [dai] (new_PriceService (λ _, 1000) (λ _, 0.5))
    = (Return result1, σ1)
    ∧ _fetchPriceData [dai] σ1 = (Return result2, σ2)
    ∧ providerPrice (λ _, 0.5) dai p
    ∧ result1 !! dai = Some p ∧ result2 !! dai = Some p
    ∧ priceCache σ2 !! dai = Some p.
Proof.
  apply (fetched_price_served_again (new_PriceService (λ _, 1000) (λ _, 0.5))
           [dai] dai).
  - intros b ->%list_elem_of_singleton. apply ownKey_digit.
  - apply list_elem_of_singleton. reflexivity.
  - apply keys_apart_single.
  - intros n. simpl. lra.
  - intros i j. simpl. lra.
  - intros k. simpl. lra.
  - reflexivity.
Defined.

Lemma sample_service_ok : service_ok (new_PriceService (λ _, 1000) (λ _, 0.5)).
Proof. apply new_PriceService_ok; intros; lra. Qed.

Lemma getPriceData_prices_every_token_witness :
  ∃ result σ',
    getPriceData (Some [dai_token]) (new_PriceService (λ _, 1000) (λ _, 0.5))
    = (Return result, σ') ∧ service_ok σ'
    ∧ ∀ a,
        match result !! a with
        | Some info =>
            a ∈ requestedAddresses [dai_token]
            ∧ ∃ p v, info = {| price := Some p; volatility24h := Some v |}
                     ∧ 0 < p ∧ 0 < v
        | None => a ∉ requestedAddresses [dai_token]
        end.
Proof.
  apply (getPriceData_prices_every_token (Some [dai_token])
           (new_PriceService (λ _, 1000) (λ _, 0.5))).
  - intros a ->%list_elem_of_singleton. apply ownKey_digit.
  - apply sample_service_ok.
Defined.

Lemma getSlippageData_entries_witness :
  ∃ result n,
    getSlippageData (Some [unpriced_token; dai_token])
      (new_PriceService (λ _, 1000) (λ _, 0.5))
    = (Return result, with_random_next n (new_PriceService (λ _, 1000) (λ _, 0.5)))
    ∧ ∀ a,
        match result !! a with
        | Some info =>
            a ∈ requestedAddresses [unpriced_token; dai_token]
            ∧ ∃ s, info = {| slippage := Some s; estimatedFee := Some (s * 0.5) |}
                   ∧ 0.05 <= s < 5
                   ∧ ∀ m, mockSlippage !! a = Some m → s = m
        | None => a ∉ requestedAddresses [unpriced_token; dai_token]
        end.
Proof.
  apply (getSlippageData_entries (Some [unpriced_token; dai_token])
           (new_PriceService (λ _, 1000) (λ _, 0.5))).
  - intros a [-> | ->%list_elem_of_singleton]%elem_of_cons; apply ownKey_digit.
  - intros k. simpl. lra.
Defined.


(** * Properties of the Paymaster service *)

Import PaymasterService.

Lemma pm_run_bind {A B : Type} (m : PM A) (f : A → PM B) (σ : State) :
  (m ≫= f) σ
  = match m σ with
    | (Ok a, σ') => f a σ'
    | (Raise e, σ') => (Raise e, σ')
    end.
Proof. reflexivity. Qed.

(** A fresh cache is served: no request, one reading of the clock. *)
Lemma getSupportedTokens_served (σ : State) (cached : list SupportedToken) :
  supportedTokens σ = Some cached → cacheFresh σ = true →
  getSupportedTokens σ = (Ok cached, snd (Date_now σ)).
Proof.
  intros Hcached Hfresh. unfold cacheFresh in Hfresh. rewrite Hcached in Hfresh.
  unfold getSupportedTokens. rewrite pm_run_bind. unfold gets at 1.
  rewrite Hcached. rewrite pm_run_bind. simpl. rewrite Hfresh. reflexivity.
Qed.

(** The [try] block: the request is sent; an answer the service can read
    is stored with the time of its arrival, anything else throws and leaves
    the cache alone. *)
Lemma fetchSupportedTokens_run (σ : State) :
  ∃ σ',
    sent σ' = sent σ ++ [supportedTokensRequest σ]
    ∧ entryPoint σ' = entryPoint σ ∧ apiKey σ' = apiKey σ
    ∧ cacheTTL σ' = cacheTTL σ ∧ clock σ' = clock σ
    ∧ paymasterProvider σ' = paymasterProvider σ
    ∧ match parseResponse (supportedTokensAnswer σ) with
      | Ok tokens =>
          fetchSupportedTokens σ = (Ok tokens, σ')
          ∧ supportedTokens σ' = Some tokens
          ∧ supportedTokensTimestamp σ' = clock σ (clock_next σ)
          ∧ clock_next σ' = S (clock_next σ)
      | Raise e =>
          fetchSupportedTokens σ = (Raise e, σ')
          ∧ supportedTokens σ' = supportedTokens σ
          ∧ supportedTokensTimestamp σ' = supportedTokensTimestamp σ
          ∧ clock_next σ' = clock_next σ
      end.
Proof.
  unfold parseResponse, supportedTokensAnswer, supportedTokensRequest,
    fetchSupportedTokens.
  cbv [mbind PM_bind outcome_bind mret PM_ret gets lift send set_supportedTokens
       set_supportedTokensTimestamp Date_now fst snd].
  cbn [entryPoint apiKey supportedTokens supportedTokensTimestamp cacheTTL clock
       clock_next paymasterProvider sent].
  destruct (paymasterProvider σ (length (sent σ)) "pm_supported_tokens"
              [minimalUserOp; apiKey σ; JStr (entryPoint σ)]) as [resp|e].
  - destruct (responseTokens resp) as [t|e].
    + destruct (normalizeTokens t) as [tokens|e].
      * eexists. split_and!; [..|reflexivity| | |]; reflexivity.
      * eexists. split_and!; [..|reflexivity| | |]; reflexivity.
    + eexists. split_and!; [..|reflexivity| | |]; reflexivity.
  - eexists. split_and!; [..|reflexivity| | |]; reflexivity.
Qed.

Lemma getSupportedTokens_stale (σ : State) :
  cacheFresh σ = false →
  ∃ σ0,
    getSupportedTokens σ
    = try_catch fetchSupportedTokens
        (λ error, cached ← gets supportedTokens; mret (default [] cached)) σ0
    ∧ supportedTokens σ0 = supportedTokens σ
    ∧ supportedTokensTimestamp σ0 = supportedTokensTimestamp σ
    ∧ sent σ0 = sent σ ∧ entryPoint σ0 = entryPoint σ ∧ apiKey σ0 = apiKey σ
    ∧ cacheTTL σ0 = cacheTTL σ ∧ clock σ0 = clock σ
    ∧ paymasterProvider σ0 = paymasterProvider σ
    ∧ (clock_next σ <= clock_next σ0)%nat.
Proof.
  intros Hfresh. unfold cacheFresh in Hfresh.
  unfold getSupportedTokens. rewrite pm_run_bind. unfold gets at 1.
  destruct (supportedTokens σ) as [cached|] eqn:Hcached.
  - rewrite pm_run_bind.
    cbv [mbind PM_bind mret PM_ret gets Date_now].
    cbn [supportedTokensTimestamp cacheTTL]. rewrite Hfresh.
    eexists. split; [reflexivity|]. simpl.
    split_and!; try reflexivity; try assumption. lia.
  - rewrite pm_run_bind. cbv [mret PM_ret].
    exists σ. split; [reflexivity|]. split_and!; try reflexivity; try assumption.
Qed.

Lemma answer_ext (σ σ0 : State) :
  sent σ0 = sent σ → entryPoint σ0 = entryPoint σ → apiKey σ0 = apiKey σ →
  paymasterProvider σ0 = paymasterProvider σ →
  supportedTokensAnswer σ0 = supportedTokensAnswer σ
  ∧ supportedTokensRequest σ0 = supportedTokensRequest σ.
Proof.
  intros Hsent Hentry Hkey Hprov.
  unfold supportedTokensAnswer, supportedTokensRequest.
  rewrite Hsent, Hentry, Hkey, Hprov. split; reflexivity.
Qed.

(** Without a fresh cache the Paymaster is asked; an answer the service can
    read is cached with the time of its arrival and returned. *)
Lemma getSupportedTokens_fetched (σ : State) (tokens : list SupportedToken) :
  cacheFresh σ = false →
  parseResponse (supportedTokensAnswer σ) = Ok tokens →
  ∃ σ' k,
    getSupportedTokens σ = (Ok tokens, σ')
    ∧ supportedTokens σ' = Some tokens
    ∧ supportedTokensTimestamp σ' = clock σ k
    ∧ (clock_next σ <= k)%nat ∧ clock_next σ' = S k
    ∧ sent σ' = sent σ ++ [supportedTokensRequest σ]
    ∧ entryPoint σ' = entryPoint σ ∧ apiKey σ' = apiKey σ
    ∧ cacheTTL σ' = cacheTTL σ ∧ clock σ' = clock σ
    ∧ paymasterProvider σ' = paymasterProvider σ.
Proof.
  intros Hfresh Hparse.
  destruct (getSupportedTokens_stale σ Hfresh)
    as (σ0 & -> & Hc0 & Ht0 & Hs0 & He0 & Hk0 & Httl0 & Hclk0 & Hp0 & Hn0).
  destruct (answer_ext σ σ0 Hs0 He0 Hk0 Hp0) as [Hanswer Hrequest].
  destruct (fetchSupportedTokens_run σ0)
    as (σ' & Hs & He & Hk & Httl & Hclk & Hp & Hrun).
  rewrite Hanswer, Hparse in Hrun. destruct Hrun as (Hrun & Hc & Ht & Hn).
  exists σ', (clock_next σ0). unfold try_catch. rewrite Hrun.
  split_and!; first [congruence | assumption].
Qed.

(** An answer the service cannot read, or none: the call returns what the
    cache holds, whatever its age, or the empty list; the cache is left as
    it is. *)
Lemma getSupportedTokens_fell_back (σ : State) (e : error) :
  cacheFresh σ = false →
  parseResponse (supportedTokensAnswer σ) = Raise e →
  ∃ σ',
    getSupportedTokens σ = (Ok (default [] (supportedTokens σ)), σ')
    ∧ supportedTokens σ' = supportedTokens σ
    ∧ supportedTokensTimestamp σ' = supportedTokensTimestamp σ
    ∧ sent σ' = sent σ ++ [supportedTokensRequest σ]
    ∧ entryPoint σ' = entryPoint σ ∧ apiKey σ' = apiKey σ
    ∧ cacheTTL σ' = cacheTTL σ ∧ clock σ' = clock σ
    ∧ paymasterProvider σ' = paymasterProvider σ.
Proof.
  intros Hfresh Hparse.
  destruct (getSupportedTokens_stale σ Hfresh)
    as (σ0 & -> & Hc0 & Ht0 & Hs0 & He0 & Hk0 & Httl0 & Hclk0 & Hp0 & Hn0).
  destruct (answer_ext σ σ0 Hs0 He0 Hk0 Hp0) as [Hanswer Hrequest].
  destruct (fetchSupportedTokens_run σ0)
    as (σ' & Hs & He & Hk & Httl & Hclk & Hp & Hrun).
  rewrite Hanswer, Hparse in Hrun. destruct Hrun as (Hrun & Hc & Ht & Hn).
  exists σ'. unfold try_catch. rewrite Hrun.
  rewrite pm_run_bind. unfold gets at 1. cbv [mret PM_ret].
  split_and!; try congruence.
Qed.

(** X11: [getSupportedTokens] never throws, whatever the Paymaster answers
    and whatever the shape of the answer; it sends at most one request; and
    the list it returns is the one the cache holds after the call, or the
    empty list if the cache is still unset. *)
Theorem getSupportedTokens_never_throws (σ : State) :
  ∃ tokens σ',
    getSupportedTokens σ = (Ok tokens, σ')
    ∧ (sent σ' = sent σ ∨ sent σ' = sent σ ++ [supportedTokensRequest σ])
    ∧ (supportedTokens σ' = Some tokens
       ∨ (supportedTokens σ' = None ∧ supportedTokens σ = None ∧ tokens = [])).
Proof.
  destruct (cacheFresh σ) eqn:Hfresh.
  - destruct (supportedTokens σ) as [cached|] eqn:Hcached.
    + exists cached, (snd (Date_now σ)).
      rewrite (getSupportedTokens_served σ cached Hcached Hfresh).
      split_and!; [reflexivity | left; reflexivity | left; exact Hcached].
    + unfold cacheFresh in Hfresh. rewrite Hcached in Hfresh. discriminate.
  - destruct (parseResponse (supportedTokensAnswer σ)) as [tokens|e] eqn:Hparse.
    + destruct (getSupportedTokens_fetched σ tokens Hfresh Hparse)
        as (σ' & k & Hrun & Hc & _ & _ & _ & Hs & _).
      exists tokens, σ'. split_and!; [assumption | right; assumption | left; assumption].
    + destruct (getSupportedTokens_fell_back σ e Hfresh Hparse)
        as (σ' & Hrun & Hc & _ & Hs & _).
      exists (default [] (supportedTokens σ)), σ'.
      split_and!; [assumption | right; assumption|].
      rewrite Hc. destruct (supportedTokens σ); [left | right]; auto.
Qed.

(** X12: a list fetched from the Paymaster is cached, also when it is
    empty: a second call within the TTL returns the same list and sends no
    request, so the two calls cost one request. *)
Theorem supported_tokens_fetched_once (σ : State) (tokens : list SupportedToken) :
  cacheFresh σ = false →
  parseResponse (supportedTokensAnswer σ) = Ok tokens →
  (∀ i j, clock σ j - clock σ i <= cacheTTL σ) →
  ∃ σ1 σ2,
    getSupportedTokens σ = (Ok tokens, σ1)
    ∧ getSupportedTokens σ1 = (Ok tokens, σ2)
    ∧ sent σ1 = sent σ ++ [supportedTokensRequest σ]
    ∧ sent σ2 = sent σ1.
Proof.
  intros Hfresh Hparse Hspan.
  destruct (getSupportedTokens_fetched σ tokens Hfresh Hparse)
    as (σ1 & k & Hrun & Hc & Ht & _ & _ & Hs & _ & _ & Httl & Hclk & _).
  assert (Hfresh1 : cacheFresh σ1 = true).
  { unfold cacheFresh. rewrite Hc, Ht, Httl, Hclk.
    apply bool_decide_eq_true_2, Hspan. }
  exists σ1, (snd (Date_now σ1)).
  rewrite (getSupportedTokens_served σ1 tokens Hc Hfresh1).
  split_and!; try assumption; reflexivity.
Qed.

(** X13: when the Paymaster cannot be reached, or answers something the
    service cannot read, and the cache is stale or unset, the call returns
    the stale list (the empty list if there is none) and leaves list and
    time stamp as they were. *)
Theorem getSupportedTokens_falls_back (σ : State) (e : error) :
  cacheFresh σ = false →
  parseResponse (supportedTokensAnswer σ) = Raise e →
  ∃ σ',
    getSupportedTokens σ = (Ok (default [] (supportedTokens σ)), σ')
    ∧ supportedTokens σ' = supportedTokens σ
    ∧ supportedTokensTimestamp σ' = supportedTokensTimestamp σ
    ∧ sent σ' = sent σ ++ [supportedTokensRequest σ].
Proof.
  intros Hfresh Hparse.
  destruct (getSupportedTokens_fell_back σ e Hfresh Hparse)
    as (σ' & Hrun & Hc & Ht & Hs & _).
  exists σ'. split_and!; assumption.
Qed.

Lemma dai_entry_normalized : normalizeToken dai_entry = Ok dai_supported.
Proof.
  unfold normalizeToken, dai_entry, dai_supported.
  cbv [prop mbind outcome_bind List.find fst snd String.eqb Ascii.eqb Bool.eqb
       fmap option_fmap option_map default truthy Datatypes.id].
  rewrite (bool_decide_eq_true_2 ((1 : R) ≠ 0)) by lra.
  reflexivity.
Qed.

Lemma paymaster_up_parsed (σ : State) :
  paymasterProvider σ = paymaster_up →
  parseResponse (supportedTokensAnswer σ) = Ok [dai_supported].
Proof.
  intros Hup. unfold supportedTokensAnswer. rewrite Hup.
  unfold paymaster_up, parseResponse.
  change (Ok (JObj [("tokens"%string, JArr [dai_entry])]) ≫= _)
    with (normalizeTokens (JArr [dai_entry])).
  unfold normalizeTokens, array_map. rewrite dai_entry_normalized. reflexivity.
Qed.

Lemma supported_tokens_fetched_once_witness :
  ∃ σ1 σ2,
    getSupportedTokens (new_PaymasterService None (Some "key"%string) (λ _, 1000)
                          paymaster_up) = (Ok [dai_supported], σ1)
    ∧ getSupportedTokens σ1 = (Ok [dai_supported], σ2)
    ∧ sent σ1 = [supportedTokensRequest
                   (new_PaymasterService None (Some "key"%string) (λ _, 1000)
                      paymaster_up)]
    ∧ sent σ2 = sent σ1.
Proof.
  apply (supported_tokens_fetched_once
           (new_PaymasterService None (Some "key"%string) (λ _, 1000) paymaster_up)
           [dai_supported]).
  - reflexivity.
  - apply paymaster_up_parsed. reflexivity.
  - intros i j. simpl. lra.
Defined.

Lemma getSupportedTokens_falls_back_witness :
  ∃ σ',
    getSupportedTokens (paymaster_cached (1000 + 600001) paymaster_down)
    = (Ok [dai_supported], σ')
    ∧ supportedTokens σ' = Some [dai_supported]
    ∧ supportedTokensTimestamp σ' = 1000
    ∧ sent σ' = [supportedTokensRequest
                   (paymaster_cached (1000 + 600001) paymaster_down)].
Proof.
  apply (getSupportedTokens_falls_back
           (paymaster_cached (1000 + 600001) paymaster_down)
           (RpcError (JStr "timeout"))).
  - unfold cacheFresh. simpl. apply bool_decide_eq_false_2. lra.
  - reflexivity.
Defined.

(** X14: the answer of the Paymaster is read the same way in its three
    shapes: an object with the array under [tokens], the array itself, and
    an object with the array under any other name. *)
Theorem response_shapes_agree (elements : list json) (key : string) :
  parseResponse (Ok (JObj [("tokens"%string, JArr elements)]))
  = array_map normalizeToken elements
  ∧ parseResponse (Ok (JArr elements)) = array_map normalizeToken elements
  ∧ parseResponse (Ok (JObj [(key, JArr elements)]))
    = array_map normalizeToken elements.
Proof.
  split_and!.
  - reflexivity.
  - reflexivity.
  - unfold parseResponse, responseTokens, prop.
    cbv [mbind outcome_bind List.find fst snd fmap option_fmap option_map
         list_fmap default].
    destruct (String.eqb key "tokens"); reflexivity.
Qed.

(** X15: a truthy [tokens] that is not an array is not passed over for
    another array of the response: the answer is unreadable (a [TypeError],
    which [getSupportedTokens] catches). *)
Theorem non_array_tokens_unreadable (other : json)
    (properties : list (string * json)) :
  truthy other = true → isArray other = false →
  parseResponse (Ok (JObj (("tokens"%string, other) :: properties)))
  = Raise TypeError.
Proof.
  intros Htruthy Harray.
  unfold parseResponse, responseTokens, prop.
  cbv [mbind outcome_bind List.find fst snd String.eqb Ascii.eqb Bool.eqb
       fmap option_fmap option_map default Datatypes.id].
  rewrite Htruthy. destruct other; try discriminate; reflexivity.
Qed.

Lemma non_array_tokens_unreadable_witness :
  parseResponse (Ok (JObj [("tokens"%string, JStr "none");
                           ("data"%string, JArr [dai_entry])]))
  = Raise TypeError.
Proof.
  apply (non_array_tokens_unreadable (JStr "none") [("data"%string, JArr [dai_entry])]).
  - reflexivity.
  - reflexivity.
Defined.

(** X16: [getPaymasterData] checks before it sends.  A type other than the
    numbers 0, 1, 2, or type 1 or 2 without a token address, throws an
    [Error] and nothing is sent; any other call sends exactly one
    [pm_sponsorUserOperation] request, with the token and type as fourth
    parameter for the types 1 and 2 only, and hands on the Paymaster's
    answer, be it a result or an error, unchanged. *)
Theorem getPaymasterData_validates_before_sending (toString : json → string)
    (userOp type tokenAddress : json) (σ : State) :
  ∃ answer σ',
    getPaymasterData toString userOp type tokenAddress σ = (answer, σ')
    ∧ if negb (isPaymentType type)
         || paysWithToken type && negb (truthy tokenAddress)
      then (∃ message, answer = Raise (Error message)) ∧ σ' = σ
      else
        let params :=
          [userOp; apiKey σ; JStr (entryPoint σ)]
          ++ (if paysWithToken type
              then [JObj [("token"%string, tokenAddress); ("type"%string, type)]]
              else []) in
        answer = paymasterProvider σ (length (sent σ)) "pm_sponsorUserOperation" params
        ∧ sent σ' = sent σ ++ [("pm_sponsorUserOperation"%string, params)]
        ∧ supportedTokens σ' = supportedTokens σ
        ∧ clock_next σ' = clock_next σ.
Proof.
  unfold getPaymasterData.
  assert (Hdefault : truthy (match tokenAddress with
                             | JUndefined => JNull
                             | _ => tokenAddress
                             end) = truthy tokenAddress)
    by (destruct tokenAddress; reflexivity).
  rewrite Hdefault.
  destruct (isPaymentType type) eqn:Htype; cbn [negb andb orb].
  - destruct (paysWithToken type) eqn:Hpays; cbn [negb andb orb].
    + destruct (truthy tokenAddress) eqn:Htoken; cbn [negb andb orb].
      * cbv [mbind PM_bind gets try_catch send throw].
        cbn [apiKey entryPoint sent paymasterProvider].
        assert (Hsame : match tokenAddress with
                        | JUndefined => JNull
                        | _ => tokenAddress
                        end = tokenAddress)
          by (destruct tokenAddress; try reflexivity; discriminate).
        rewrite Hsame.
        destruct (paymasterProvider σ (length (sent σ)) "pm_sponsorUserOperation"
                    ([userOp; apiKey σ; JStr (entryPoint σ)]
                     ++ [JObj [("token"%string, tokenAddress); ("type"%string, type)]]))
          as [response|e] eqn:Hanswer;
          eexists _, _; (split; [reflexivity|]);
          split_and!; reflexivity.
      * eexists _, _. split; [reflexivity|]. split; [eauto | reflexivity].
    + cbv [mbind PM_bind gets try_catch send throw].
      cbn [apiKey entryPoint sent paymasterProvider app].
      destruct (paymasterProvider σ (length (sent σ)) "pm_sponsorUserOperation"
                  [userOp; apiKey σ; JStr (entryPoint σ)])
        as [response|e] eqn:Hanswer;
        eexists _, _; (split; [reflexivity|]);
        split_and!; reflexivity.
  - eexists _, _. split; [reflexivity|]. split; [eauto | reflexivity].
Qed.

(** X17: the payment types [getSupportedPaymentTypes] announces are exactly
    the ones [getPaymasterData] accepts, and a call never touches the
    state. *)
Theorem announced_payment_types_accepted (type : json) (σ : State) :
  ∃ types,
    getSupportedPaymentTypes σ = (Ok types, σ)
    ∧ (isPaymentType type = true ↔ ∃ x, type = JNum x ∧ x ∈ id <$> types).
Proof.
  eexists. split; [reflexivity|]. simpl. split.
  - destruct type; try discriminate. intros Hx%bool_decide_eq_true_1.
    exists x. split; [reflexivity|].
    destruct Hx as [-> | [-> | ->]].
    + apply elem_of_cons. left. reflexivity.
    + apply elem_of_cons. right. apply elem_of_cons. left. reflexivity.
    + do 2 (apply elem_of_cons; right). apply elem_of_cons. left. reflexivity.
  - intros (x & -> & Hx). apply bool_decide_eq_true_2.
    repeat (apply elem_of_cons in Hx as [-> | Hx]; [auto|]).
    inversion Hx.
Qed.

(** On a list whose entries all have a string address, [some] with the
    comparison of lower-cased addresses is [includes] on the lower-cased
    addresses. *)
Lemma someSupported_includes (supported : list SupportedToken) :
  ∀ (supportedAddresses : list string) (normalizedAddress : string),
    supportedAddressesOf supported = Ok supportedAddresses →
    someSupported supported normalizedAddress
    = Ok (bool_decide (normalizedAddress ∈ supportedAddresses)).
Proof.
  unfold supportedAddressesOf, someSupported.
  induction supported as [|entry supported IH]; intros addrs a Haddrs.
  - injection Haddrs as <-. reflexivity.
  - simpl in Haddrs |- *.
    destruct (toLowerCase_of (address entry)) as [s|e]; [|discriminate].
    cbv [mbind outcome_bind] in Haddrs, IH |- *.
    destruct (array_map (λ token, toLowerCase_of (address token)) supported)
      as [rest|e] eqn:Hrest; [|discriminate].
    injection Haddrs as <-.
    destruct (decide (s = a)) as [->|Hne].
    + rewrite bool_decide_eq_true_2 by reflexivity.
      rewrite bool_decide_eq_true_2 by (apply elem_of_cons; left; reflexivity).
      reflexivity.
    + rewrite (bool_decide_eq_false_2 (s = a)) by assumption.
      rewrite (IH rest a eq_refl). f_equal. apply bool_decide_ext.
      rewrite elem_of_cons. split; [auto|]. intros [->|Hin]; [contradiction|assumption].
Qed.

(** A run of [filterSupportedTokens] that returns. *)
Lemma filterSupportedTokens_run (userTokens eligible : list Token) (σ σ' : State) :
  filterSupportedTokens userTokens σ = (Ok eligible, σ') →
  ∃ supported supportedAddresses,
    getSupportedTokens σ = (Ok supported, σ')
    ∧ supportedAddressesOf supported = Ok supportedAddresses
    ∧ eligible = filter (λ token, toLowerCase (walletAddress token) ∈ supportedAddresses)
                   userTokens
    ∧ ∀ tokenAddress,
        isTokenSupported tokenAddress σ
        = (Ok (bool_decide (toLowerCase tokenAddress ∈ supportedAddresses)), σ').
Proof.
  unfold filterSupportedTokens, isTokenSupported. rewrite pm_run_bind.
  destruct (getSupportedTokens σ) as [[supported|e] σ1] eqn:Hget; [|discriminate].
  rewrite pm_run_bind. unfold lift at 1.
  destruct (supportedAddressesOf supported) as [addrs|e] eqn:Haddrs; [|discriminate].
  intros [= <- <-]. exists supported, addrs.
  split_and!; try reflexivity; try assumption.
  intros a. rewrite pm_run_bind, Hget. unfold lift.
  rewrite (someSupported_includes supported addrs _ Haddrs). reflexivity.
Qed.

(** X18: [filterSupportedTokens] keeps, in the order of the wallet, exactly
    the tokens for which [isTokenSupported] answers true; both compare
    addresses without regard to case. *)
Theorem filterSupportedTokens_agrees_with_isTokenSupported
    (userTokens eligible : list Token) (σ σ' : State) :
  filterSupportedTokens userTokens σ = (Ok eligible, σ') →
  eligible `sublist_of` userTokens
  ∧ ∀ token, token ∈ userTokens →
      (token ∈ eligible ↔ isTokenSupported (walletAddress token) σ = (Ok true, σ'))
      ∧ (token ∉ eligible ↔ isTokenSupported (walletAddress token) σ = (Ok false, σ')).
Proof.
  intros (supported & addrs & _ & _ & -> & Hsupported)%filterSupportedTokens_run.
  split; [apply sublist_filter|].
  intros token Hin. rewrite Hsupported, list_elem_of_filter.
  destruct (decide (toLowerCase (walletAddress token) ∈ addrs)) as [Hyes|Hno].
  - rewrite bool_decide_eq_true_2 by assumption. split; split.
    + reflexivity.
    + intros _. split; assumption.
    + intros Hnot. exfalso. apply Hnot. split; assumption.
    + discriminate.
  - rewrite bool_decide_eq_false_2 by assumption. split; split.
    + intros [Hyes _]. contradiction.
    + discriminate.
    + reflexivity.
    + intros _ [Hyes _]. contradiction.
Qed.

(** X19: filter, then score.  When the scorer is run on the tokens
    [filterSupportedTokens] kept, the recommended token is a token of the
    wallet that the Paymaster supports. *)
Theorem recommendation_is_supported (parseFloat : string → option R)
    (toFixed : R → nat → string) (userTokens eligible : list Token) (σ σ' : State)
    (priceData : gmap string PriceInfo) (slippageData : gmap string SlippageInfo)
    (rec : Recommendation) (best : ScoredToken) :
  filterSupportedTokens userTokens σ = (Ok eligible, σ') →
  scoreTokens parseFloat toFixed (Some eligible) (Some priceData) (Some slippageData)
  = Return (Some rec) →
  recommendedToken rec = Some best →
  token best ∈ userTokens
  ∧ isTokenSupported (walletAddress (token best)) σ = (Ok true, σ').
Proof.
  intros (supported & addrs & _ & _ & Heligible & Hsupported)%filterSupportedTokens_run
    Hscore Hbest.
  assert (Hin : token best ∈ eligible).
  { assert (Hsome : eligible ≠ []) by (intros Hnil; rewrite Hnil in Hscore; discriminate).
    rewrite scoreTokens_nonempty in Hscore by assumption.
    cbv zeta in Hscore. injection Hscore as <-. cbn [recommendedToken] in Hbest.
    apply list_elem_of_lookup_2 in Hbest.
    assert (Hscored : best ∈ scoreToken parseFloat toFixed priceData slippageData
                             <$> eligible)
      by (rewrite <- (sort_perm score); exact Hbest).
    apply list_elem_of_fmap in Hscored as (t & -> & Ht).
    rewrite scoreToken_token. assumption. }
  rewrite Heligible in Hin. apply list_elem_of_filter in Hin as [Haddr Hwallet].
  split; [assumption|].
  rewrite Hsupported, bool_decide_eq_true_2 by assumption. reflexivity.
Qed.

Lemma paymaster_cached_fresh :
  cacheFresh (paymaster_cached (1000 + 5) paymaster_down) = true.
Proof. unfold cacheFresh. simpl. apply bool_decide_eq_true_2. lra. Qed.

Lemma sample_wallet_filtered :
  filterSupportedTokens [unparsable_token; dai_token]
    (paymaster_cached (1000 + 5) paymaster_down)
  = (Ok [dai_token], snd (Date_now (paymaster_cached (1000 + 5) paymaster_down))).
Proof.
  unfold filterSupportedTokens. rewrite pm_run_bind.
  rewrite (getSupportedTokens_served (paymaster_cached (1000 + 5) paymaster_down)
             [dai_supported] eq_refl paymaster_cached_fresh).
  reflexivity.
Qed.

Lemma filterSupportedTokens_agrees_with_isTokenSupported_witness :
  [dai_token] `sublist_of` [unparsable_token; dai_token]
  ∧ ∀ token, token ∈ [unparsable_token; dai_token] →
      (token ∈ [dai_token]
       ↔ isTokenSupported (walletAddress token)
           (paymaster_cached (1000 + 5) paymaster_down)
         = (Ok true, snd (Date_now (paymaster_cached (1000 + 5) paymaster_down))))
      ∧ (token ∉ [dai_token]
         ↔ isTokenSupported (walletAddress token)
             (paymaster_cached (1000 + 5) paymaster_down)
           = (Ok false, snd (Date_now (paymaster_cached (1000 + 5) paymaster_down)))).
Proof.
  apply (filterSupportedTokens_agrees_with_isTokenSupported
           [unparsable_token; dai_token] [dai_token]
           (paymaster_cached (1000 + 5) paymaster_down)).
  apply sample_wallet_filtered.
Defined.

Lemma recommendation_is_supported_witness :
  let best := scoreToken parseDecimal toFixedDecimal dai_data dai_slippage dai_token in
  token best ∈ [unparsable_token; dai_token]
  ∧ isTokenSupported (walletAddress (token best))
      (paymaster_cached (1000 + 5) paymaster_down)
    = (Ok true, snd (Date_now (paymaster_cached (1000 + 5) paymaster_down))).
Proof.
  intros best. subst best.
  apply (recommendation_is_supported parseDecimal toFixedDecimal
           [unparsable_token; dai_token] [dai_token]
           (paymaster_cached (1000 + 5) paymaster_down)
           (snd (Date_now (paymaster_cached (1000 + 5) paymaster_down)))
           dai_data dai_slippage
           {| recommendedToken :=
                Some (scoreToken parseDecimal toFixedDecimal dai_data dai_slippage
                        dai_token);
              allScores :=
                [scoreToken parseDecimal toFixedDecimal dai_data dai_slippage
                   dai_token] |}
           (scoreToken parseDecimal toFixedDecimal dai_data dai_slippage dai_token)).
  - apply sample_wallet_filtered.
  - reflexivity.
  - reflexivity.
Defined.

(** X20: [estimateGasCost] checks nothing before it sends: whatever the
    token address, one [pm_estimate] request goes out.  An error of the
    Paymaster is handed on unchanged and a [null] answer is a [TypeError].
    Of any other answer each field is handed on when it is truthy, and
    replaced by its default when it is missing or falsy: the string "0" for
    [tokenAmount], [usdAmount] and [gasPrice], the empty string for
    [tokenSymbol]; so the three amounts of an estimate are always truthy. *)
Theorem estimateGasCost_sends_unchecked (userOp tokenAddress : json) (σ : State) :
  let params := [userOp; apiKey σ; JStr (entryPoint σ);
                 JObj [("token"%string, tokenAddress)]] in
  ∃ estimate σ',
    estimateGasCost userOp tokenAddress σ = (estimate, σ')
    ∧ sent σ' = sent σ ++ [("pm_estimate"%string, params)]
    ∧ match paymasterProvider σ (length (sent σ)) "pm_estimate" params with
      | Raise e => estimate = Raise e
      | Ok JNull | Ok JUndefined => estimate = Raise TypeError
      | Ok response =>
          ∃ amount symbol usd price cost,
            prop response "tokenAmount" = Ok amount
            ∧ prop response "tokenSymbol" = Ok symbol
            ∧ prop response "usdAmount" = Ok usd
            ∧ prop response "gasPrice" = Ok price
            ∧ estimate = Ok cost
            ∧ tokenAmount cost = (if truthy amount then amount else JStr "0")
            ∧ tokenSymbol cost = (if truthy symbol then symbol else JStr "")
            ∧ usdAmount cost = (if truthy usd then usd else JStr "0")
            ∧ gasPrice cost = (if truthy price then price else JStr "0")
            ∧ truthy (tokenAmount cost) = true
            ∧ truthy (usdAmount cost) = true
            ∧ truthy (gasPrice cost) = true
      end.
Proof.
  intros params. subst params. unfold estimateGasCost.
  cbv [mbind PM_bind mret PM_ret gets try_catch send throw lift].
  cbn [apiKey entryPoint sent paymasterProvider].
  destruct (paymasterProvider σ (length (sent σ)) "pm_estimate"
              [userOp; apiKey σ; JStr (entryPoint σ);
               JObj [("token"%string, tokenAddress)]]) as [response|e].
  - assert (Hdefault : ∀ v d : json, truthy d = true →
                       truthy (if truthy v then v else d) = true).
    { intros v d Hd. destruct (truthy v) eqn:Hv; assumption. }
    destruct response; cbn [prop];
      eexists _, _; (split; [reflexivity|]); (split; [reflexivity|]);
      try reflexivity;
      eexists _, _, _, _, _;
      split_and!; try reflexivity; apply Hdefault; reflexivity.
  - eexists _, _. split; [reflexivity|]. split; reflexivity.
Qed.
